(** * Ash voice-session core: transcript assembly, playback scheduling and
      session lifecycle of [App.tsx], embedded and verified.

    Conventions of the embedding.

    - A JavaScript string is the list of its UTF-16 code units ([jsstring]);
      the regular expression of [filterHallucinations] has no [u] flag, so it
      works on code units, and so does [String.prototype.trim].
    - Times ([AudioContext.currentTime], [AudioBuffer.duration], the schedule
      cursor) are counted in output frames (1/24000 s): both the device clock
      and a buffer's duration are whole numbers of frames of the 24 kHz output
      context.  The rounding of IEEE doubles is not modelled.
    - React state and refs live in one record [App]; every call into the host
      (Web Audio, transport, console) is recorded in [effects], oldest first.
    - Handlers run in a small state-and-exception monad [M]; values that the
      host chooses (clock, random ids, outcomes of fallible calls) are read
      from a [Host] record. *)

From Stdlib Require Import ZArith NArith List String Ascii Bool Lia.
From stdpp Require Import base tactics option list.
Import ListNotations.
Open Scope Z_scope.

(** ** JavaScript strings *)

Definition jsstring := list N.

(** Code units of an ASCII literal, for readable examples. *)
Definition js (s : string) : jsstring :=
  List.map N_of_ascii (list_ascii_of_string s).

(** A string is truthy iff it is not empty. *)
Definition truthy (s : jsstring) : bool :=
  match s with [] => false | _ :: _ => true end.

(** ECMAScript WhiteSpace and LineTerminator code points (all in the BMP):
    TAB, LF, VT, FF, CR, SP, NBSP, U+1680, U+2000..U+200A, LS, PS, U+202F,
    U+205F, U+3000, U+FEFF. *)
Definition isWhiteSpace (c : N) : bool :=
  ((9 <=? c) && (c <=? 13) || (c =? 32) || (c =? 160) || (c =? 5760)
   || (8192 <=? c) && (c <=? 8202) || (c =? 8232) || (c =? 8233)
   || (c =? 8239) || (c =? 8287) || (c =? 12288) || (c =? 65279))%N.

Fixpoint trimStart (s : jsstring) : jsstring :=
  match s with
  | [] => []
  | c :: s' => if isWhiteSpace c then trimStart s' else s
  end.

Definition trimEnd (s : jsstring) : jsstring := rev (trimStart (rev s)).

Definition trim (s : jsstring) : jsstring := trimEnd (trimStart s).

(** The class [[^\x00-\x7F]]: a code unit above 0x7F. *)
Definition in_7bit (c : N) : bool := (c <=? 127)%N.

(** [text.replace(/[^\x00-\x7F]/g, "")] *)
Definition strip_non_7bit (text : jsstring) : jsstring := List.filter in_7bit text.

(** [filterHallucinations], App.tsx lines 44-48. *)
Definition filterHallucinations (text : jsstring) : jsstring :=
  trim (strip_non_7bit text).

(** "Hello आई कशी आहेस" *)
Definition hello_marathi : jsstring :=
  (js "Hello " ++ [2310; 2312; 32; 2325; 2358; 2368; 32; 2310; 2361; 2375; 2360])%N.

(** "chala jevayla जाऊया" *)
Definition chala_marathi : jsstring :=
  (js "chala jevayla " ++ [2332; 2366; 2314; 2351; 2366])%N.

(** ** Data model (types.ts and the state of [App]) *)

Inductive ConnectionStatus := disconnected | connecting | connected | error.

Inductive Role := user | model.

Record TranscriptionEntry := {
  id : jsstring;
  role : Role;
  text : jsstring;
  timestamp : Z
}.

(** [transcriptionRef.current]: the pending turn buffer. *)
Record PendingTurn := { input : jsstring; output : jsstring }.

Definition empty_turn : PendingTurn := {| input := []; output := [] |}.

(** Host objects are identified by handles. *)
Definition AudioContext := nat.
Definition Session := nat.
Definition ScriptProcessorNode := nat.
Definition AudioBufferSourceNode := nat.

(** The fallible host calls of [startSession], in program order. *)
Inductive StartStep :=
| GetUserMedia | NewGoogleGenAI | NewInputContext | NewOutputContext
| ResumeInput | ResumeOutput | CreateAnalysers | CreateOutputNode | LiveConnect.

Inductive Exn :=
| PermissionError | DeviceError | TransportError | DecodeError
| InvalidStateError | RequestError.

(** Calls into the host that the claims observe. *)
Inductive Effect :=
| SessionClose (s : Session)
| ProcessorDisconnect (p : ScriptProcessorNode)
| ProcessorConnect (p : ScriptProcessorNode)
| SourceStart (s : AudioBufferSourceNode) (when : Z)
| SourceStop (s : AudioBufferSourceNode)
| HostCall (step : StartStep)
| ChatSendMessage (history : list (Role * jsstring)) (message : jsstring)
| ConsoleError (e : Exn).

Record App := {
  status : ConnectionStatus;
  isThinking : bool;
  isSpeaking : bool;
  inputValue : jsstring;
  transcriptions : list TranscriptionEntry;
  inputContextRef : option AudioContext;
  outputContextRef : option AudioContext;
  sessionRef : option Session;
  scriptProcessorRef : option ScriptProcessorNode;
  nextStartTimeRef : Z;
  audioSourcesRef : list AudioBufferSourceNode;
  transcriptionRef : PendingTurn;
  effects : list Effect
}.

(** The state of a freshly mounted component whose log is [log]. *)
Definition mount (log : list TranscriptionEntry) : App :=
  {| status := disconnected; isThinking := false; isSpeaking := false;
     inputValue := []; transcriptions := log;
     inputContextRef := None; outputContextRef := None;
     sessionRef := None; scriptProcessorRef := None;
     nextStartTimeRef := 0; audioSourcesRef := [];
     transcriptionRef := empty_turn; effects := [] |}.

Definition with_status (v : ConnectionStatus) (a : App) : App :=
  {| status := v; isThinking := isThinking a; isSpeaking := isSpeaking a;
     inputValue := inputValue a; transcriptions := transcriptions a;
     inputContextRef := inputContextRef a; outputContextRef := outputContextRef a;
     sessionRef := sessionRef a; scriptProcessorRef := scriptProcessorRef a;
     nextStartTimeRef := nextStartTimeRef a; audioSourcesRef := audioSourcesRef a;
     transcriptionRef := transcriptionRef a; effects := effects a |}.

Definition with_isThinking (v : bool) (a : App) : App :=
  {| status := status a; isThinking := v; isSpeaking := isSpeaking a;
     inputValue := inputValue a; transcriptions := transcriptions a;
     inputContextRef := inputContextRef a; outputContextRef := outputContextRef a;
     sessionRef := sessionRef a; scriptProcessorRef := scriptProcessorRef a;
     nextStartTimeRef := nextStartTimeRef a; audioSourcesRef := audioSourcesRef a;
     transcriptionRef := transcriptionRef a; effects := effects a |}.

Definition with_isSpeaking (v : bool) (a : App) : App :=
  {| status := status a; isThinking := isThinking a; isSpeaking := v;
     inputValue := inputValue a; transcriptions := transcriptions a;
     inputContextRef := inputContextRef a; outputContextRef := outputContextRef a;
     sessionRef := sessionRef a; scriptProcessorRef := scriptProcessorRef a;
     nextStartTimeRef := nextStartTimeRef a; audioSourcesRef := audioSourcesRef a;
     transcriptionRef := transcriptionRef a; effects := effects a |}.

Definition with_inputValue (v : jsstring) (a : App) : App :=
  {| status := status a; isThinking := isThinking a; isSpeaking := isSpeaking a;
     inputValue := v; transcriptions := transcriptions a;
     inputContextRef := inputContextRef a; outputContextRef := outputContextRef a;
     sessionRef := sessionRef a; scriptProcessorRef := scriptProcessorRef a;
     nextStartTimeRef := nextStartTimeRef a; audioSourcesRef := audioSourcesRef a;
     transcriptionRef := transcriptionRef a; effects := effects a |}.

Definition with_transcriptions (v : list TranscriptionEntry) (a : App) : App :=
  {| status := status a; isThinking := isThinking a; isSpeaking := isSpeaking a;
     inputValue := inputValue a; transcriptions := v;
     inputContextRef := inputContextRef a; outputContextRef := outputContextRef a;
     sessionRef := sessionRef a; scriptProcessorRef := scriptProcessorRef a;
     nextStartTimeRef := nextStartTimeRef a; audioSourcesRef := audioSourcesRef a;
     transcriptionRef := transcriptionRef a; effects := effects a |}.

Definition with_inputContextRef (v : option AudioContext) (a : App) : App :=
  {| status := status a; isThinking := isThinking a; isSpeaking := isSpeaking a;
     inputValue := inputValue a; transcriptions := transcriptions a;
     inputContextRef := v; outputContextRef := outputContextRef a;
     sessionRef := sessionRef a; scriptProcessorRef := scriptProcessorRef a;
     nextStartTimeRef := nextStartTimeRef a; audioSourcesRef := audioSourcesRef a;
     transcriptionRef := transcriptionRef a; effects := effects a |}.

Definition with_outputContextRef (v : option AudioContext) (a : App) : App :=
  {| status := status a; isThinking := isThinking a; isSpeaking := isSpeaking a;
     inputValue := inputValue a; transcriptions := transcriptions a;
     inputContextRef := inputContextRef a; outputContextRef := v;
     sessionRef := sessionRef a; scriptProcessorRef := scriptProcessorRef a;
     nextStartTimeRef := nextStartTimeRef a; audioSourcesRef := audioSourcesRef a;
     transcriptionRef := transcriptionRef a; effects := effects a |}.

Definition with_sessionRef (v : option Session) (a : App) : App :=
  {| status := status a; isThinking := isThinking a; isSpeaking := isSpeaking a;
     inputValue := inputValue a; transcriptions := transcriptions a;
     inputContextRef := inputContextRef a; outputContextRef := outputContextRef a;
     sessionRef := v; scriptProcessorRef := scriptProcessorRef a;
     nextStartTimeRef := nextStartTimeRef a; audioSourcesRef := audioSourcesRef a;
     transcriptionRef := transcriptionRef a; effects := effects a |}.

Definition with_scriptProcessorRef (v : option ScriptProcessorNode) (a : App) : App :=
  {| status := status a; isThinking := isThinking a; isSpeaking := isSpeaking a;
     inputValue := inputValue a; transcriptions := transcriptions a;
     inputContextRef := inputContextRef a; outputContextRef := outputContextRef a;
     sessionRef := sessionRef a; scriptProcessorRef := v;
     nextStartTimeRef := nextStartTimeRef a; audioSourcesRef := audioSourcesRef a;
     transcriptionRef := transcriptionRef a; effects := effects a |}.

Definition with_nextStartTimeRef (v : Z) (a : App) : App :=
  {| status := status a; isThinking := isThinking a; isSpeaking := isSpeaking a;
     inputValue := inputValue a; transcriptions := transcriptions a;
     inputContextRef := inputContextRef a; outputContextRef := outputContextRef a;
     sessionRef := sessionRef a; scriptProcessorRef := scriptProcessorRef a;
     nextStartTimeRef := v; audioSourcesRef := audioSourcesRef a;
     transcriptionRef := transcriptionRef a; effects := effects a |}.

Definition with_audioSourcesRef (v : list AudioBufferSourceNode) (a : App) : App :=
  {| status := status a; isThinking := isThinking a; isSpeaking := isSpeaking a;
     inputValue := inputValue a; transcriptions := transcriptions a;
     inputContextRef := inputContextRef a; outputContextRef := outputContextRef a;
     sessionRef := sessionRef a; scriptProcessorRef := scriptProcessorRef a;
     nextStartTimeRef := nextStartTimeRef a; audioSourcesRef := v;
     transcriptionRef := transcriptionRef a; effects := effects a |}.

Definition with_transcriptionRef (v : PendingTurn) (a : App) : App :=
  {| status := status a; isThinking := isThinking a; isSpeaking := isSpeaking a;
     inputValue := inputValue a; transcriptions := transcriptions a;
     inputContextRef := inputContextRef a; outputContextRef := outputContextRef a;
     sessionRef := sessionRef a; scriptProcessorRef := scriptProcessorRef a;
     nextStartTimeRef := nextStartTimeRef a; audioSourcesRef := audioSourcesRef a;
     transcriptionRef := v; effects := effects a |}.

Definition with_effects (v : list Effect) (a : App) : App :=
  {| status := status a; isThinking := isThinking a; isSpeaking := isSpeaking a;
     inputValue := inputValue a; transcriptions := transcriptions a;
     inputContextRef := inputContextRef a; outputContextRef := outputContextRef a;
     sessionRef := sessionRef a; scriptProcessorRef := scriptProcessorRef a;
     nextStartTimeRef := nextStartTimeRef a; audioSourcesRef := audioSourcesRef a;
     transcriptionRef := transcriptionRef a; effects := v |}.

(** ** The handler monad: state plus exceptions *)

Inductive Completion (A : Type) :=
| Normal (a : A)
| Throw (e : Exn).
Arguments Normal {A} a.
Arguments Throw {A} e.

Definition M (A : Type) : Type := App -> Completion A * App.

Definition ret {A} (a : A) : M A := fun st => (Normal a, st).

Definition bind {A B} (m : M A) (k : A -> M B) : M B :=
  fun st =>
    match m st with
    | (Normal a, st') => k a st'
    | (Throw e, st') => (Throw e, st')
    end.

Definition throw {A} (e : Exn) : M A := fun st => (Throw e, st).

(** [try { m } catch (e) { h e }] *)
Definition try_catch {A} (m : M A) (h : Exn -> M A) : M A :=
  fun st =>
    match m st with
    | (Normal a, st') => (Normal a, st')
    | (Throw e, st') => h e st'
    end.

(** [try { m } finally { f }]; [f] never throws in this program. *)
Definition try_finally {A} (m : M A) (f : M unit) : M A :=
  fun st =>
    match m st with
    | (r, st') =>
        match f st' with
        | (Normal _, st'') => (r, st'')
        | (Throw e, st'') => (Throw e, st'')
        end
    end.

Definition get : M App := fun st => (Normal st, st).

Definition modify (f : App -> App) : M unit := fun st => (Normal tt, f st).

Definition emit (e : Effect) : M unit :=
  modify (fun st => with_effects (effects st ++ [e]) st).

Declare Scope handler_scope.
Delimit Scope handler_scope with handler.
Notation "'let!' x ':=' m 'in' k" := (bind m (fun x => k))
  (at level 10, x name, m at level 100, k at level 200) : handler_scope.
Notation "m '>>' k" := (bind m (fun _ => k))
  (at level 90, right associativity) : handler_scope.
Open Scope handler_scope.

(** [when c m]: [if (c) { m }] *)
Definition when (c : bool) (m : M unit) : M unit := if c then m else ret tt.

(** [xs.forEach(f)] *)
Fixpoint forEach {A} (xs : list A) (f : A -> M unit) : M unit :=
  match xs with
  | [] => ret tt
  | x :: xs' => f x >> forEach xs' f
  end.

(** The final state of a handler run, whatever its completion. *)
Definition exec {A} (m : M A) (st : App) : App := snd (m st).

(** React state setters. *)
Definition setStatus (v : ConnectionStatus) : M unit := modify (with_status v).
Definition setIsThinking (v : bool) : M unit := modify (with_isThinking v).
Definition setIsSpeaking (v : bool) : M unit := modify (with_isSpeaking v).
Definition setInputValue (v : jsstring) : M unit := modify (with_inputValue v).
Definition setTranscriptions
    (f : list TranscriptionEntry -> list TranscriptionEntry) : M unit :=
  modify (fun st => with_transcriptions (f (transcriptions st)) st).

(** ** The host *)

(** What the host answers during one handler run.  [decodeAudioData] is the
    helper of [services/audioUtils] applied to the base64 payload: the duration
    of the decoded buffer in frames, or [None] when decoding rejects.
    [random k] and [dateNow k] are what [Math.random().toString()] and
    [Date.now()] return for the k-th entry the handler can create (0 for the
    user entry, 1 for the model entry). *)
Record Host := {
  currentTime : Z;
  stopThrows : AudioBufferSourceNode -> bool;
  createBufferSource : AudioBufferSourceNode;
  decodeAudioData : jsstring -> option Z;
  random : nat -> jsstring;
  dateNow : nat -> Z
}.

(** [s.stop()]: raises on a source the host refuses to stop. *)
Definition source_stop (h : Host) (s : AudioBufferSourceNode) : M unit :=
  emit (SourceStop s) >>
  if stopThrows h s then throw InvalidStateError else ret tt.

(** [audioSourcesRef.current.forEach(s => { try { s.stop(); } catch (e) {} })] *)
Definition stop_all_sources (h : Host) : M unit :=
  let! st := get in
  forEach (audioSourcesRef st)
    (fun s => try_catch (source_stop h s) (fun _ => ret tt)).

(** [Set.prototype.add] and [Set.prototype.delete] on an insertion-ordered set. *)
Definition set_add (s : AudioBufferSourceNode) (l : list AudioBufferSourceNode) :=
  if existsb (Nat.eqb s) l then l else l ++ [s].

Definition set_delete (s : AudioBufferSourceNode) (l : list AudioBufferSourceNode) :=
  List.filter (fun x => negb (Nat.eqb s x)) l.

(** ** stopSession, App.tsx lines 82-102 *)

Definition stopSession (h : Host) : M unit :=
  let! st := get in
  match sessionRef st with
  | Some s => emit (SessionClose s) >> modify (with_sessionRef None)
  | None => ret tt
  end >>
  let! st := get in
  match scriptProcessorRef st with
  | Some p => emit (ProcessorDisconnect p) >> modify (with_scriptProcessorRef None)
  | None => ret tt
  end >>
  stop_all_sources h >>
  modify (with_audioSourcesRef []) >>
  modify (with_nextStartTimeRef 0) >>
  setStatus disconnected >>
  setIsSpeaking false >>
  setIsThinking false.

(** ** The transport callbacks of startSession *)

(** A [LiveServerMessage], through the accessors the handler uses. *)
Record LiveServerMessage := {
  base64Audio : option jsstring;
  interrupted : bool;
  outputTranscription : option jsstring;
  inputTranscription : option jsstring;
  turnComplete : bool
}.

(** Lines 153-170: the audio-chunk branch. *)
Definition on_audio (h : Host) (message : LiveServerMessage) : M unit :=
  let! st := get in
  match base64Audio message, outputContextRef st with
  | Some b, Some _ =>
      when (truthy b)
        (setIsThinking false >>
         setIsSpeaking true >>
         modify (fun st =>
           with_nextStartTimeRef (Z.max (nextStartTimeRef st) (currentTime h)) st) >>
         let! duration :=
           match decodeAudioData h b with
           | Some d => ret d
           | None => throw DecodeError
           end in
         let source := createBufferSource h in
         let! st := get in
         emit (SourceStart source (nextStartTimeRef st)) >>
         modify (fun st => with_nextStartTimeRef (nextStartTimeRef st + duration) st) >>
         modify (fun st => with_audioSourcesRef (set_add source (audioSourcesRef st)) st))
  | _, _ => ret tt
  end.

(** Lines 172-177: the interrupted branch. *)
Definition on_interrupted (h : Host) (message : LiveServerMessage) : M unit :=
  when (interrupted message)
    (stop_all_sources h >>
     modify (with_audioSourcesRef []) >>
     modify (with_nextStartTimeRef 0) >>
     setIsSpeaking false).

(** Lines 179-184: accumulation of transcript fragments. *)
Definition accumulate (message : LiveServerMessage) (t : PendingTurn) : PendingTurn :=
  match outputTranscription message with
  | Some frag => {| input := input t; output := output t ++ frag |}
  | None =>
      match inputTranscription message with
      | Some frag => {| input := input t ++ frag; output := output t |}
      | None => t
      end
  end.

Definition on_transcription (message : LiveServerMessage) : M unit :=
  match outputTranscription message with
  | Some _ =>
      modify (fun st => with_transcriptionRef (accumulate message (transcriptionRef st)) st)
  | None =>
      match inputTranscription message with
      | Some _ =>
          modify (fun st =>
            with_transcriptionRef (accumulate message (transcriptionRef st)) st) >>
          setIsThinking true
      | None => ret tt
      end
  end.

(** The updater passed to [setTranscriptions] at lines 191-196. *)
Definition flush_items (h : Host) (cleanedIn cleanedOut : jsstring)
    (prev : list TranscriptionEntry) : list TranscriptionEntry :=
  let items := prev in
  let items :=
    if truthy cleanedIn
    then items ++ [{| id := random h 0; role := user; text := cleanedIn;
                      timestamp := dateNow h 0 |}]
    else items in
  let items :=
    if truthy cleanedOut
    then items ++ [{| id := random h 1; role := model; text := cleanedOut;
                      timestamp := dateNow h 1 |}]
    else items in
  items.

(** Lines 186-200: the turn-complete branch. *)
Definition on_turnComplete (h : Host) (message : LiveServerMessage) : M unit :=
  when (turnComplete message)
    (let! st := get in
     let cleanedIn := filterHallucinations (input (transcriptionRef st)) in
     let cleanedOut := filterHallucinations (output (transcriptionRef st)) in
     when (truthy cleanedIn || truthy cleanedOut)
       (setTranscriptions (flush_items h cleanedIn cleanedOut)) >>
     modify (with_transcriptionRef empty_turn) >>
     setIsThinking false).

(** [onmessage], lines 152-201.  Messages are handled one at a time: the
    handler runs to completion before the next event is delivered. *)
Definition onmessage (h : Host) (message : LiveServerMessage) : M unit :=
  on_audio h message >>
  on_interrupted h message >>
  on_transcription message >>
  on_turnComplete h message.

(** [source.onended], lines 163-166. *)
Definition onended (source : AudioBufferSourceNode) : M unit :=
  modify (fun st => with_audioSourcesRef (set_delete source (audioSourcesRef st)) st) >>
  let! st := get in
  when (Nat.eqb (List.length (audioSourcesRef st)) 0) (setIsSpeaking false).

(** Lines 202-203. *)
Definition onerror (h : Host) : M unit := stopSession h.
Definition onclose (h : Host) : M unit := stopSession h.

(** ** startSession, App.tsx lines 104-211 *)

(** What the host answers during one run of [startSession]: which of the
    fallible calls raises or rejects, and the handles it hands out. *)
Record StartHost := {
  fails : StartStep -> option Exn;
  newInputContext : AudioContext;
  newOutputContext : AudioContext;
  newScriptProcessor : ScriptProcessorNode;
  newSession : Session
}.

Definition host_call (sh : StartHost) (step : StartStep) : M unit :=
  emit (HostCall step) >>
  match fails sh step with
  | Some e => throw e
  | None => ret tt
  end.

(** Lines 137-151: runs when the transport opens, before [connect] resolves. *)
Definition onopen (sh : StartHost) : M unit :=
  setStatus connected >>
  modify (with_scriptProcessorRef (Some (newScriptProcessor sh))) >>
  emit (ProcessorConnect (newScriptProcessor sh)).

(** The body of the [try] block, lines 106-206.  The analyser refs serve the
    visualisation only and are not part of the state. *)
Definition startSession_try (sh : StartHost) : M unit :=
  setStatus connecting >>
  host_call sh GetUserMedia >>
  host_call sh NewGoogleGenAI >>
  let! st := get in
  match inputContextRef st with
  | Some _ => ret tt
  | None =>
      host_call sh NewInputContext >>
      modify (with_inputContextRef (Some (newInputContext sh)))
  end >>
  let! st := get in
  match outputContextRef st with
  | Some _ => ret tt
  | None =>
      host_call sh NewOutputContext >>
      modify (with_outputContextRef (Some (newOutputContext sh)))
  end >>
  host_call sh ResumeInput >>
  host_call sh ResumeOutput >>
  host_call sh CreateAnalysers >>
  host_call sh CreateOutputNode >>
  host_call sh LiveConnect >>
  onopen sh >>
  modify (with_sessionRef (Some (newSession sh))).

Definition startSession (sh : StartHost) : M unit :=
  try_catch (startSession_try sh)
    (fun err => emit (ConsoleError err) >> setStatus error).

(** ** handleTextEnter (sendText), App.tsx lines 213-240 *)

(** How [chat.sendMessage] settles; [Resolved None] is a reply without text. *)
Inductive SendResult :=
| Rejected (e : Exn)
| Resolved (reply : option jsstring).

(** [transcriptions.map(t => ({ role: t.role, parts: [{ text: t.text }] }))] *)
Definition history_of (log : list TranscriptionEntry) : list (Role * jsstring) :=
  List.map (fun t => (role t, text t)) log.

(** [response.text || ''] *)
Definition or_empty (t : option jsstring) : jsstring :=
  match t with
  | Some s => s
  | None => []
  end.

(** Lines 213-233 up to the [await]: returns [true] when a request has been
    issued and is pending.  [setupThrows] tells whether building the client and
    the chat (lines 220-230, outside the [try]) raises.  The history is taken
    from the [transcriptions] the handler closed over, read on entry. *)
Definition handleTextEnter_issue (h : Host) (setupThrows : bool) (text : jsstring)
    : M bool :=
  if negb (truthy (trim text)) then ret false
  else
    let! rendered := get in
    let userMsgId := random h 0 in
    setTranscriptions (fun prev =>
      prev ++ [{| id := userMsgId; role := user; text := text;
                  timestamp := dateNow h 0 |}]) >>
    setInputValue [] >>
    setIsThinking true >>
    (if setupThrows then throw RequestError else ret tt) >>
    emit (ChatSendMessage (history_of (transcriptions rendered)) text) >>
    ret true.

(** Lines 232-239 from the [await] on: the request has settled with [r]. *)
Definition handleTextEnter_settle (h : Host) (r : SendResult) : M unit :=
  try_finally
    (try_catch
       (let! response :=
          match r with
          | Resolved reply => ret reply
          | Rejected e => throw e
          end in
        setTranscriptions (fun prev =>
          prev ++ [{| id := random h 1; role := model;
                      text := filterHallucinations (or_empty response);
                      timestamp := dateNow h 1 |}]))
       (fun e => emit (ConsoleError e)))
    (setIsThinking false).

(** The whole call, when nothing else runs while the request is pending. *)
Definition handleTextEnter (h : Host) (setupThrows : bool) (r : SendResult)
    (text : jsstring) : M unit :=
  let! pending := handleTextEnter_issue h setupThrows text in
  when pending (handleTextEnter_settle h r).

(** ** Events of the component *)

Inductive Event :=
| Start (sh : StartHost)
| Stop
| Message (message : LiveServerMessage)
| TransportFailed
| TransportClosed
| SourceEnded (source : AudioBufferSourceNode)
| TextEnter (setupThrows : bool) (text : jsstring)
| ChatSettled (r : SendResult)
| SendText (setupThrows : bool) (r : SendResult) (text : jsstring).

Definition handle (h : Host) (ev : Event) : M unit :=
  match ev with
  | Start sh => startSession sh
  | Stop => stopSession h
  | Message message => onmessage h message
  | TransportFailed => onerror h
  | TransportClosed => onclose h
  | SourceEnded source => onended source
  | TextEnter setupThrows text => handleTextEnter_issue h setupThrows text >> ret tt
  | ChatSettled r => handleTextEnter_settle h r
  | SendText setupThrows r text => handleTextEnter h setupThrows r text
  end.

(** One event, handled to completion; an exception escaping the handler is an
    unhandled rejection and leaves the state as it was when raised. *)
Definition step (st : App) (he : Host * Event) : App :=
  exec (handle (fst he) (snd he)) st.

Definition run (evs : list (Host * Event)) (st : App) : App :=
  fold_left step evs st.

(** ** Observations on the effect log *)

(** The times passed to [source.start], oldest first. *)
Definition start_times (es : list Effect) : list Z :=
  flat_map (fun e => match e with SourceStart _ t => [t] | _ => [] end) es.

(** The sources [stop] was called on, oldest first. *)
Definition stopped_sources (es : list Effect) : list AudioBufferSourceNode :=
  flat_map (fun e => match e with SourceStop s => [s] | _ => [] end) es.

(** The duration of the chunk a message carries, when the message is an audio
    chunk that decodes and carries no interruption. *)
Definition chunk_duration (h : Host) (message : LiveServerMessage) : option Z :=
  match base64Audio message with
  | Some b =>
      if truthy b && negb (interrupted message) then decodeAudioData h b else None
  | None => None
  end.

(** The audio part of a message, if any, decodes. *)
Definition audio_decodes (h : Host) (message : LiveServerMessage) : bool :=
  match base64Audio message with
  | Some b => if truthy b then bool_decide (is_Some (decodeAudioData h b)) else true
  | None => true
  end.

(** The start times of chunks given as (clock, duration) when the cursor
    stands at [cursor]: each chunk starts at the larger of cursor and clock,
    and the cursor moves to the end of the chunk. *)
Fixpoint schedule (cursor : Z) (chunks : list (Z * Z)) : list Z :=
  match chunks with
  | [] => []
  | (now, d) :: rest =>
      let start := Z.max cursor now in
      start :: schedule (start + d) rest
  end.

(** Messages delivered in arrival order, each with the host's answers at the
    time it is handled. *)
Definition deliver (ms : list (Host * LiveServerMessage)) (st : App) : App :=
  run ((fun hm => (fst hm, Message (snd hm))) <$> ms) st.

(** Clock reading and chunk duration at each delivery. *)
Definition timing (ms : list (Host * LiveServerMessage)) : list (Z * Z) :=
  (fun hm => (currentTime (fst hm), default 0 (chunk_duration (fst hm) (snd hm)))) <$> ms.

(** Where the cursor stands after the chunks of [schedule]. *)
Definition cursor_after (cursor : Z) (chunks : list (Z * Z)) : Z :=
  fold_left (fun c nd => Z.max c (fst nd) + snd nd) chunks cursor.

(** A message that schedules a chunk of non-negative duration. *)
Definition is_chunk (hm : Host * LiveServerMessage) : Prop :=
  exists d, chunk_duration (fst hm) (snd hm) = Some d /\ 0 <= d.

(** ** Vocabulary of the statements *)

(** Every step of [m] relates the state before to the state after by [R]. *)
Definition respects (R : relation App) {A} (m : M A) : Prop :=
  forall st, R st (snd (m st)).

(** The log and the pending buffer are left as they were. *)
Definition transcript_untouched : relation App :=
  fun a b => transcriptions b = transcriptions a
             /\ transcriptionRef b = transcriptionRef a.

(** The log only grows at its end. *)
Definition log_grows : relation App :=
  fun a b => transcriptions a `prefix_of` transcriptions b.

(** The host calls a teardown makes from [st], in order. *)
Definition teardown_calls (st : App) : list Effect :=
  match sessionRef st with Some s => [SessionClose s] | None => [] end
  ++ match scriptProcessorRef st with Some p => [ProcessorDisconnect p] | None => [] end
  ++ List.map SourceStop (audioSourcesRef st).

Definition torn_down (st : App) : App :=
  {| status := disconnected; isThinking := false; isSpeaking := false;
     inputValue := inputValue st; transcriptions := transcriptions st;
     inputContextRef := inputContextRef st; outputContextRef := outputContextRef st;
     sessionRef := None; scriptProcessorRef := None;
     nextStartTimeRef := 0; audioSourcesRef := [];
     transcriptionRef := transcriptionRef st;
     effects := effects st ++ teardown_calls st |}.

(** The state after a chunk of duration [d] has been scheduled. *)
Definition scheduled (h : Host) (d : Z) (st : App) : App :=
  let start := Z.max (nextStartTimeRef st) (currentTime h) in
  with_audioSourcesRef (set_add (createBufferSource h) (audioSourcesRef st))
    (with_nextStartTimeRef (start + d)
       (with_effects (effects st ++ [SourceStart (createBufferSource h) start])
          (with_isSpeaking true (with_isThinking false st)))).

Definition all_ws (s : jsstring) : Prop := Forall (fun c => isWhiteSpace c = true) s.

(** ** Sample inputs *)

(** A host whose clock reads 7, where source 1 refuses to stop and every
    payload decodes to a buffer of 10 frames. *)
Definition sample_host : Host :=
  {| currentTime := 7;
     stopThrows := fun s => Nat.eqb s 1;
     createBufferSource := 9%nat;
     decodeAudioData := fun _ => Some 10;
     random := fun n => js "0.5";
     dateNow := fun n => 1000 |}.

(** The same host a little later. *)
Definition host_at (now : Z) : Host :=
  {| currentTime := now;
     stopThrows := fun s => Nat.eqb s 1;
     createBufferSource := 9%nat;
     decodeAudioData := fun _ => Some 10;
     random := fun n => js "0.5";
     dateNow := fun n => 1000 |}.

Definition interruption : LiveServerMessage :=
  {| base64Audio := None; interrupted := true; outputTranscription := None;
     inputTranscription := None; turnComplete := false |}.

Definition turn_complete : LiveServerMessage :=
  {| base64Audio := None; interrupted := false; outputTranscription := None;
     inputTranscription := None; turnComplete := true |}.

Definition audio_chunk : LiveServerMessage :=
  {| base64Audio := Some (js "AAAA"); interrupted := false; outputTranscription := None;
     inputTranscription := None; turnComplete := false |}.

(** A connected session in the middle of an utterance: sources 1 and 2 are
    scheduled, the cursor stands at frame 50. *)
Definition playing : App :=
  {| status := connected; isThinking := false; isSpeaking := true;
     inputValue := []; transcriptions := [];
     inputContextRef := Some 0%nat; outputContextRef := Some 1%nat;
     sessionRef := Some 0%nat; scriptProcessorRef := Some 0%nat;
     nextStartTimeRef := 50; audioSourcesRef := [1%nat; 2%nat];
     transcriptionRef := empty_turn; effects := [] |}.

(** A connected session with nothing scheduled. *)
Definition listening : App :=
  with_isSpeaking false (with_audioSourcesRef [] (with_nextStartTimeRef 0 playing)).

(** Two chunks of 10 frames; the second arrives at frame 100, long after the
    first has finished playing. *)
Definition late_chunks : list (Host * LiveServerMessage) :=
  [(host_at 0, audio_chunk); (host_at 100, audio_chunk)].

(** A connected session at the end of a turn with both sides transcribed. *)
Definition turn_pending : App :=
  with_transcriptionRef
    {| input := js "mala bhuk lagli"; output := chala_marathi |} playing.

(** A host under which microphone permission is denied. *)
Definition denying_host : StartHost :=
  {| fails := fun step =>
       match step with GetUserMedia => Some PermissionError | _ => None end;
     newInputContext := 0%nat; newOutputContext := 1%nat;
     newScriptProcessor := 0%nat; newSession := 0%nat |}.

(** A host under which every call succeeds. *)
Definition willing_host : StartHost :=
  {| fails := fun _ => None;
     newInputContext := 0%nat; newOutputContext := 1%nat;
     newScriptProcessor := 0%nat; newSession := 0%nat |}.

(** ** The presentation handlers, App.tsx lines 287-323 *)

(** The component state the presentation handlers read and write: the state of
    the core plus the [showKeyboard] flag. *)
Record Ui := { app : App; showKeyboard : bool }.







(** Line 316: [onKeyClick = k => setInputValue(v => v + k)]. *)
Definition onKeyClick (k : jsstring) (ui : Ui) : Ui :=
  {| app := with_inputValue (inputValue (app ui) ++ k) (app ui);
     showKeyboard := showKeyboard ui |}.

(** Line 317: [onDelete = () => setInputValue(v => v.slice(0, -1))]. *)
Definition onDelete (ui : Ui) : Ui :=
  {| app := with_inputValue (removelast (inputValue (app ui))) (app ui);
     showKeyboard := showKeyboard ui |}.

(** Line 318: [onEnter], up to the point where [handleTextEnter] awaits its
    request.  [handleTextEnter] is an async function, so an exception in it
    rejects its promise and [setShowKeyboard(false)] runs in any case. *)
Definition onEnter (h : Host) (setupThrows : bool) (ui : Ui) : Ui :=
  {| app := exec (handleTextEnter_issue h setupThrows (inputValue (app ui))) (app ui);
     showKeyboard := false |}.

(** Keys pressed one after the other. *)
Definition type_keys (ks : list jsstring) (ui : Ui) : Ui :=
  fold_left (fun u k => onKeyClick k u) ks ui.

(** ** More vocabulary *)

(** The pending buffer after the fragments of [ms], in arrival order. *)
Definition accumulated (ms : list (Host * LiveServerMessage)) (t : PendingTurn)
    : PendingTurn :=
  fold_left (fun t hm => accumulate (snd hm) t) ms t.

(** End-of-playback callbacks fired for the sources of [l], in that order. *)
Definition ended (h : Host) (l : list AudioBufferSourceNode) : list (Host * Event) :=
  (fun s => (h, SourceEnded s)) <$> l.

(** Effects on playback sources and teardown calls. *)
Definition is_playback_or_teardown (e : Effect) : bool :=
  match e with
  | SessionClose _ | ProcessorDisconnect _ | SourceStart _ _ | SourceStop _ => true
  | _ => false
  end.

(** Nothing is scheduled, stopped, closed or disconnected, and the playback
    state is left as it was. *)
Definition playback_untouched : relation App :=
  fun a b =>
    audioSourcesRef b = audioSourcesRef a
    /\ nextStartTimeRef b = nextStartTimeRef a
    /\ isSpeaking b = isSpeaking a
    /\ exists new, effects b = effects a ++ new
                   /\ Forall (fun e => is_playback_or_teardown e = false) new.

(** Status, handles and contexts are left as they were. *)
Definition connection_untouched : relation App :=
  fun a b =>
    status b = status a
    /\ sessionRef b = sessionRef a
    /\ scriptProcessorRef b = scriptProcessorRef a
    /\ inputContextRef b = inputContextRef a
    /\ outputContextRef b = outputContextRef a.

(** [s] has been passed to [start]. *)
Definition started (es : list Effect) (s : AudioBufferSourceNode) : Prop :=
  exists t, SourceStart s t ∈ es.

(** Every call of [stop] comes after a call of [start] on the same source. *)
Definition stops_follow_starts (es : list Effect) : Prop :=
  forall i s, es !! i = Some (SourceStop s) ->
    exists j t, (j < i)%nat /\ es !! j = Some (SourceStart s t).

(** The active set holds started sources only. *)
Definition playback_consistent (st : App) : Prop :=
  stops_follow_starts (effects st)
  /\ forall s, s ∈ audioSourcesRef st -> started (effects st) s.

(** The state in which a rejected decode leaves the handler. *)
Definition decode_failed (h : Host) (st : App) : App :=
  with_nextStartTimeRef (Z.max (nextStartTimeRef st) (currentTime h))
    (with_isSpeaking true (with_isThinking false st)).

(** A message that does not complete the turn and whose audio part, if any,
    decodes. *)
Definition mid_turn (hm : Host * LiveServerMessage) : Prop :=
  turnComplete (snd hm) = false /\ audio_decodes (fst hm) (snd hm) = true.

(** The events that start or tear down a session. *)
Definition is_lifecycle (ev : Event) : bool :=
  match ev with
  | Start _ | Stop | TransportFailed | TransportClosed => true
  | _ => false
  end.

(** The events of sendText. *)
Definition is_text_event (ev : Event) : bool :=
  match ev with
  | TextEnter _ _ | ChatSettled _ | SendText _ _ _ => true
  | _ => false
  end.

(** The events that come from the transport's message stream. *)
Definition is_message (ev : Event) : bool :=
  match ev with
  | Message _ => true
  | _ => false
  end.

(** The host calls of a start in which every call succeeds, from a state
    whose context refs are [ic] and [oc]. *)
Definition start_calls (ic oc : option AudioContext) : list StartStep :=
  [GetUserMedia; NewGoogleGenAI]
  ++ match ic with Some _ => [] | None => [NewInputContext] end
  ++ match oc with Some _ => [] | None => [NewOutputContext] end
  ++ [ResumeInput; ResumeOutput; CreateAnalysers; CreateOutputNode; LiveConnect].

(** ** More sample inputs *)

(** A host under which no payload decodes. *)
Definition undecodable_host : Host :=
  {| currentTime := 7;
     stopThrows := fun s => false;
     createBufferSource := 9%nat;
     decodeAudioData := fun _ => None;
     random := fun n => js "0.5";
     dateNow := fun n => 1000 |}.

(** An audio chunk that also ends the turn and carries the interruption flag. *)
Definition loaded_message : LiveServerMessage :=
  {| base64Audio := Some (js "AAAA"); interrupted := true; outputTranscription := None;
     inputTranscription := None; turnComplete := true |}.

Definition input_fragment (f : jsstring) : LiveServerMessage :=
  {| base64Audio := None; interrupted := false; outputTranscription := None;
     inputTranscription := Some f; turnComplete := false |}.

Definition output_fragment (f : jsstring) : LiveServerMessage :=
  {| base64Audio := None; interrupted := false; outputTranscription := Some f;
     inputTranscription := None; turnComplete := false |}.

(** A message carrying a fragment of each side. *)
Definition both_fragments (o i : jsstring) : LiveServerMessage :=
  {| base64Audio := None; interrupted := false; outputTranscription := Some o;
     inputTranscription := Some i; turnComplete := false |}.

(** The fragments of one turn, as they arrive. *)
Definition turn_fragments : list (Host * LiveServerMessage) :=
  [(sample_host, input_fragment (js "mala "));
   (sample_host, input_fragment (js "bhuk lagli"));
   (sample_host, output_fragment (js "chala "));
   (sample_host, output_fragment (js "jevayla"))].

(** * Verification *)

(** ** Facts about [trim] *)

Lemma trimStart_split (s : jsstring) :
  exists pre, s = pre ++ trimStart s /\ all_ws pre.
Proof.
  induction s as [|c s IH]; simpl.
  - exists []. split; [reflexivity | constructor].
  - destruct (isWhiteSpace c) eqn:Hc.
    + destruct IH as (pre & Hs & Hpre).
      exists (c :: pre). split.
      * simpl. f_equal. exact Hs.
      * constructor; assumption.
    + exists []. split; [reflexivity | constructor].
Qed.

Lemma trimStart_head (s : jsstring) (c : N) :
  head (trimStart s) = Some c -> isWhiteSpace c = false.
Proof.
  induction s as [|d s IH]; simpl; [discriminate|].
  destruct (isWhiteSpace d) eqn:Hd; [exact IH|].
  simpl. intros [= <-]. exact Hd.
Qed.

Lemma all_ws_rev (s : jsstring) : all_ws s -> all_ws (rev s).
Proof. unfold all_ws. rewrite !List.Forall_forall. intros H c Hc. apply H, in_rev, Hc. Qed.

Lemma trimEnd_split (s : jsstring) :
  exists post, s = trimEnd s ++ post /\ all_ws post.
Proof.
  destruct (trimStart_split (rev s)) as (pre & Hs & Hpre).
  exists (rev pre). split.
  - unfold trimEnd. rewrite <- rev_app_distr, <- Hs, rev_involutive. reflexivity.
  - apply all_ws_rev, Hpre.
Qed.

Lemma last_rev_head {A} (l : list A) : last (rev l) = head l.
Proof. destruct l as [|a l]; simpl; [reflexivity|]. apply last_snoc. Qed.

Lemma trimEnd_last (s : jsstring) (c : N) :
  last (trimEnd s) = Some c -> isWhiteSpace c = false.
Proof. unfold trimEnd. rewrite last_rev_head. apply trimStart_head. Qed.

Lemma head_app_nonempty {A} (l k : list A) (a : A) :
  head l = Some a -> head (l ++ k) = Some a.
Proof. destruct l; simpl; [discriminate | trivial]. Qed.

Lemma trimEnd_head (s : jsstring) (c : N) :
  (forall d, head s = Some d -> isWhiteSpace d = false) ->
  head (trimEnd s) = Some c -> isWhiteSpace c = false.
Proof.
  intros Hs Hc. apply Hs.
  destruct (trimEnd_split s) as (post & Heq & _).
  rewrite Heq at 1. apply head_app_nonempty, Hc.
Qed.

Lemma trim_split (s : jsstring) :
  exists pre post, s = pre ++ trim s ++ post /\ all_ws pre /\ all_ws post.
Proof.
  destruct (trimStart_split s) as (pre & Hs & Hpre).
  destruct (trimEnd_split (trimStart s)) as (post & Ht & Hpost).
  exists pre, post. unfold trim. rewrite <- Ht. auto.
Qed.

Lemma trim_head (s : jsstring) (c : N) :
  head (trim s) = Some c -> isWhiteSpace c = false.
Proof. unfold trim. apply trimEnd_head. intros d. apply trimStart_head. Qed.

Lemma trim_last (s : jsstring) (c : N) :
  last (trim s) = Some c -> isWhiteSpace c = false.
Proof. unfold trim. apply trimEnd_last. Qed.

Lemma strip_non_7bit_Forall (text : jsstring) :
  Forall (fun c => (c <= 127)%N) (strip_non_7bit text).
Proof.
  apply List.Forall_forall. intros c Hc.
  apply filter_In in Hc as [_ Hc]. apply N.leb_le, Hc.
Qed.

(** C2. For every input string, [filterHallucinations] keeps exactly the code
    units of the 7-bit range, in order, minus a run of whitespace at each end:
    the result has no code unit above 0x7F, it is the 7-bit subsequence of the
    input with an all-whitespace prefix and an all-whitespace suffix cut off,
    and it neither starts nor ends with whitespace.  In particular
    "Hello आई कशी आहेस" gives "Hello" and "   " gives the empty string. *)
Theorem filterHallucinations_spec :
  (forall text : jsstring,
     let r := filterHallucinations text in
     Forall (fun c => (c <= 127)%N) r
     /\ (exists pre post,
           List.filter in_7bit text = pre ++ r ++ post /\ all_ws pre /\ all_ws post)
     /\ (forall c, head r = Some c -> isWhiteSpace c = false)
     /\ (forall c, last r = Some c -> isWhiteSpace c = false))
  /\ filterHallucinations hello_marathi = js "Hello"
  /\ filterHallucinations (js "   ") = js "".
Proof.
  split; [|split; reflexivity].
  intros text r. subst r. unfold filterHallucinations.
  destruct (trim_split (strip_non_7bit text)) as (pre & post & Heq & Hpre & Hpost).
  repeat split.
  - pose proof (strip_non_7bit_Forall text) as H.
    rewrite Heq in H. apply Forall_app in H as [_ H]. apply Forall_app in H as [H _].
    exact H.
  - exists pre, post. auto.
  - apply trim_head.
  - apply trim_last.
Qed.

(** ** Frame reasoning: relations every step of a handler respects *)

Section Respects.
Context (R : relation App) `{!PreOrder R}.

Lemma respects_ret {A} (a : A) : respects R (ret a).
Proof. intros st. reflexivity. Qed.

Lemma respects_throw {A} (e : Exn) : respects R (@throw A e).
Proof. intros st. reflexivity. Qed.

Lemma respects_get : respects R get.
Proof. intros st. reflexivity. Qed.

Lemma respects_modify (f : App -> App) :
  (forall st, R st (f st)) -> respects R (modify f).
Proof. intros Hf st. apply Hf. Qed.

Lemma respects_bind {A B} (m : M A) (k : A -> M B) :
  respects R m -> (forall a, respects R (k a)) -> respects R (bind m k).
Proof.
  intros Hm Hk st. unfold bind. specialize (Hm st).
  destruct (m st) as [[a|e] st1]; simpl in *; [|exact Hm].
  etransitivity; [exact Hm | apply Hk].
Qed.

Lemma respects_try_catch {A} (m : M A) (k : Exn -> M A) :
  respects R m -> (forall e, respects R (k e)) -> respects R (try_catch m k).
Proof.
  intros Hm Hk st. unfold try_catch. specialize (Hm st).
  destruct (m st) as [[a|e] st1]; simpl in *; [exact Hm|].
  etransitivity; [exact Hm | apply Hk].
Qed.

Lemma respects_try_finally {A} (m : M A) (f : M unit) :
  respects R m -> respects R f -> respects R (try_finally m f).
Proof.
  intros Hm Hf st. unfold try_finally. specialize (Hm st).
  destruct (m st) as [r st1]. specialize (Hf st1).
  destruct (f st1) as [[u|e] st2]; simpl in *; etransitivity; eauto.
Qed.

Lemma respects_when (c : bool) (m : M unit) : respects R m -> respects R (when c m).
Proof. intros Hm. destruct c; simpl; [exact Hm | apply respects_ret]. Qed.

Lemma respects_forEach {A} (xs : list A) (f : A -> M unit) :
  (forall x, respects R (f x)) -> respects R (forEach xs f).
Proof.
  intros Hf. induction xs as [|x xs IH]; simpl.
  - apply respects_ret.
  - apply respects_bind; [apply Hf | intros _; exact IH].
Qed.

End Respects.

(** Breaks a handler into its primitive state updates. *)
Ltac frame :=
  repeat match goal with
    | |- respects _ (ret _) => apply respects_ret; apply _
    | |- respects _ (throw _) => apply respects_throw; apply _
    | |- respects _ get => apply respects_get; apply _
    | |- respects _ (bind _ _) => apply respects_bind; [apply _ | | intros ?]
    | |- respects _ (try_catch _ _) => apply respects_try_catch; [apply _ | | intros ?]
    | |- respects _ (try_finally _ _) => apply respects_try_finally; [apply _ | | ]
    | |- respects _ (when _ _) => apply respects_when; [apply _ | ]
    | |- respects _ (forEach _ _) => apply respects_forEach; [apply _ | intros ?]
    | |- respects _ (modify _) => apply respects_modify; intros ?
    | |- respects _ (match ?x with _ => _ end) => destruct x
    | |- respects _ _ =>
        progress unfold setStatus, setIsThinking, setIsSpeaking, setInputValue,
          setTranscriptions, emit, stop_all_sources, source_stop, host_call, onopen
    end.

#[local] Instance transcript_untouched_preorder : PreOrder transcript_untouched.
Proof.
  split.
  - intros a. split; reflexivity.
  - intros a b c [H1 H2] [H3 H4]. split; congruence.
Qed.

#[local] Instance log_grows_preorder : PreOrder log_grows.
Proof.
  split.
  - intros a. unfold log_grows. reflexivity.
  - intros a b c H1 H2. unfold log_grows in *. etransitivity; eassumption.
Qed.

(** ** Stopping the active sources *)

Lemma with_effects_app (st : App) (es1 es2 : list Effect) :
  with_effects (effects (with_effects (effects st ++ es1) st) ++ es2)
               (with_effects (effects st ++ es1) st)
  = with_effects (effects st ++ es1 ++ es2) st.
Proof. destruct st; simpl. unfold with_effects; simpl. rewrite <- app_assoc. reflexivity. Qed.

Lemma with_effects_nil (st : App) : with_effects (effects st ++ []) st = st.
Proof. destruct st; unfold with_effects; simpl. rewrite app_nil_r. reflexivity. Qed.

Lemma guarded_stop (h : Host) (s : AudioBufferSourceNode) (st : App) :
  try_catch (source_stop h s) (fun _ => ret tt) st
  = (Normal tt, with_effects (effects st ++ [SourceStop s]) st).
Proof.
  unfold try_catch, source_stop, bind, emit, modify, throw, ret.
  destruct (stopThrows h s); reflexivity.
Qed.

Lemma forEach_guarded_stop (h : Host) (l : list AudioBufferSourceNode) (st : App) :
  forEach l (fun s => try_catch (source_stop h s) (fun _ => ret tt)) st
  = (Normal tt, with_effects (effects st ++ List.map SourceStop l) st).
Proof.
  revert st. induction l as [|s l IH]; intros st; simpl.
  - unfold ret. rewrite with_effects_nil. reflexivity.
  - unfold bind at 1. rewrite guarded_stop, IH.
    rewrite with_effects_app. reflexivity.
Qed.

Lemma stop_all_sources_eq (h : Host) (st : App) :
  stop_all_sources h st
  = (Normal tt, with_effects (effects st ++ List.map SourceStop (audioSourcesRef st)) st).
Proof. unfold stop_all_sources, bind, get. apply forEach_guarded_stop. Qed.

Lemma stopped_sources_app (es1 es2 : list Effect) :
  stopped_sources (es1 ++ es2) = stopped_sources es1 ++ stopped_sources es2.
Proof. unfold stopped_sources. apply flat_map_app. Qed.

Lemma stopped_sources_map (l : list AudioBufferSourceNode) :
  stopped_sources (List.map SourceStop l) = l.
Proof. induction l as [|s l IH]; simpl; [reflexivity | f_equal; exact IH]. Qed.

Lemma start_times_app (es1 es2 : list Effect) :
  start_times (es1 ++ es2) = start_times es1 ++ start_times es2.
Proof. unfold start_times. apply flat_map_app. Qed.

(** ** stopSession *)

Lemma stopSession_eq (h : Host) (st : App) :
  stopSession h st = (Normal tt, torn_down st).
Proof.
  unfold stopSession, torn_down, teardown_calls.
  destruct st as [s t k iv tr ic oc [se|] [sp|] n srcs tref es];
    unfold bind at 1; simpl;
    repeat (unfold bind at 1; simpl);
    rewrite stop_all_sources_eq; simpl;
    unfold with_effects; simpl; rewrite <- ?app_assoc; reflexivity.
Qed.

(** C6. [stopSession] from any state returns normally; it closes the transport
    handle if one is open, disconnects the capture processor if one is
    installed, calls [stop] on every active source and empties the set, resets
    the schedule cursor to 0, clears the speaking and thinking flags and ends
    disconnected, leaving the log alone.  A second call changes nothing and
    raises nothing.  The transport's error and close callbacks perform the same
    teardown and end disconnected, not in the error state. *)
Theorem stopSession_teardown (h h' : Host) (st : App) :
  let st' := exec (stopSession h) st in
  fst (stopSession h st) = Normal tt
  /\ sessionRef st' = None
  /\ scriptProcessorRef st' = None
  /\ audioSourcesRef st' = []
  /\ nextStartTimeRef st' = 0
  /\ isSpeaking st' = false
  /\ isThinking st' = false
  /\ status st' = disconnected
  /\ transcriptions st' = transcriptions st
  /\ effects st' =
       effects st
       ++ match sessionRef st with Some s => [SessionClose s] | None => [] end
       ++ match scriptProcessorRef st with Some p => [ProcessorDisconnect p] | None => [] end
       ++ List.map SourceStop (audioSourcesRef st)
  /\ stopSession h' st' = (Normal tt, st')
  /\ onerror h st = stopSession h st
  /\ onclose h st = stopSession h st
  /\ status (step st (h, TransportFailed)) = disconnected
  /\ status (step st (h, TransportClosed)) = disconnected
  /\ step st (h, TransportFailed) = step st (h, Stop)
  /\ step st (h, TransportClosed) = step st (h, Stop).
Proof.
  unfold step, exec, handle, onerror, onclose; simpl.
  rewrite stopSession_eq; simpl.
  repeat split.
Qed.

(** ** The branches of onmessage *)

Lemma on_interrupted_eq (h : Host) (message : LiveServerMessage) (st : App) :
  interrupted message = true ->
  on_interrupted h message st
  = (Normal tt,
     with_isSpeaking false
       (with_nextStartTimeRef 0
          (with_audioSourcesRef []
             (with_effects (effects st ++ List.map SourceStop (audioSourcesRef st)) st)))).
Proof.
  intros Hi. unfold on_interrupted. rewrite Hi. simpl.
  unfold bind at 1. rewrite stop_all_sources_eq. reflexivity.
Qed.

Lemma on_interrupted_skip (h : Host) (message : LiveServerMessage) (st : App) :
  interrupted message = false -> on_interrupted h message st = (Normal tt, st).
Proof. intros Hi. unfold on_interrupted. rewrite Hi. reflexivity. Qed.

Lemma on_audio_eq (h : Host) (message : LiveServerMessage) (st : App) (b : jsstring) (d : Z) :
  base64Audio message = Some b -> truthy b = true -> decodeAudioData h b = Some d ->
  is_Some (outputContextRef st) ->
  on_audio h message st = (Normal tt, scheduled h d st).
Proof.
  intros Hb Ht Hd [ctx Hctx]. unfold on_audio, bind at 1, get.
  rewrite Hb, Hctx, Ht. simpl.
  unfold bind, setIsThinking, setIsSpeaking, modify, emit, modify, get, ret; simpl.
  rewrite Hd. destruct st; reflexivity.
Qed.

Lemma on_audio_skip (h : Host) (message : LiveServerMessage) (st : App) :
  match base64Audio message with Some b => truthy b = false | None => True end
  \/ outputContextRef st = None ->
  on_audio h message st = (Normal tt, st).
Proof.
  intros H. unfold on_audio, bind at 1, get.
  destruct (base64Audio message) as [b|], (outputContextRef st) as [c|];
    try reflexivity; destruct H as [H|H]; try discriminate.
  rewrite H. reflexivity.
Qed.

(** Whenever its audio part decodes, [on_audio] returns normally and only
    ever adds sources to the active set. *)
Lemma on_audio_normal (h : Host) (message : LiveServerMessage) (st : App) :
  audio_decodes h message = true ->
  fst (on_audio h message st) = Normal tt
  /\ (forall s, In s (audioSourcesRef st) ->
                In s (audioSourcesRef (exec (on_audio h message) st))).
Proof.
  unfold audio_decodes, exec. intros Hdec.
  destruct (base64Audio message) as [b|] eqn:Hb.
  2:{ rewrite on_audio_skip; [auto | left; rewrite Hb; exact I]. }
  destruct (truthy b) eqn:Ht.
  2:{ rewrite on_audio_skip; [auto | left; rewrite Hb; exact Ht]. }
  destruct (outputContextRef st) as [c|] eqn:Hc.
  2:{ rewrite on_audio_skip; [auto | right; exact Hc]. }
  apply bool_decide_eq_true in Hdec as [d Hd].
  rewrite (on_audio_eq h message st b d) by eauto. simpl. split; [reflexivity|].
  intros s Hs. unfold set_add.
  destruct (existsb _ _); [exact Hs | apply in_or_app; left; exact Hs].
Qed.

Lemma on_transcription_eq (message : LiveServerMessage) (st : App) :
  exists think,
    on_transcription message st
    = (Normal tt,
       with_isThinking think
         (with_transcriptionRef (accumulate message (transcriptionRef st)) st)).
Proof.
  unfold on_transcription, accumulate.
  destruct (outputTranscription message) as [o|].
  - exists (isThinking st). destruct st; reflexivity.
  - destruct (inputTranscription message) as [i|].
    + exists true. destruct st; reflexivity.
    + exists (isThinking st). destruct st as [? ? ? ? ? ? ? ? ? ? ? [] ?]; reflexivity.
Qed.

Lemma on_turnComplete_eq (h : Host) (message : LiveServerMessage) (st : App) :
  turnComplete message = true ->
  on_turnComplete h message st
  = (Normal tt,
     with_isThinking false
       (with_transcriptionRef empty_turn
          (with_transcriptions
             (flush_items h (filterHallucinations (input (transcriptionRef st)))
                            (filterHallucinations (output (transcriptionRef st)))
                            (transcriptions st))
             st))).
Proof.
  intros Htc. unfold on_turnComplete. rewrite Htc. simpl.
  unfold bind at 1, get.
  unfold flush_items.
  destruct (filterHallucinations (input (transcriptionRef st))) as [|a ci];
    destruct (filterHallucinations (output (transcriptionRef st))) as [|a' co];
    simpl; destruct st; reflexivity.
Qed.

Lemma on_turnComplete_skip (h : Host) (message : LiveServerMessage) (st : App) :
  turnComplete message = false -> on_turnComplete h message st = (Normal tt, st).
Proof. intros Htc. unfold on_turnComplete. rewrite Htc. reflexivity. Qed.

Lemma on_interrupted_normal (h : Host) (message : LiveServerMessage) (st : App) :
  fst (on_interrupted h message st) = Normal tt.
Proof.
  destruct (interrupted message) eqn:Hi.
  - rewrite on_interrupted_eq by exact Hi. reflexivity.
  - rewrite on_interrupted_skip by exact Hi. reflexivity.
Qed.

Lemma on_transcription_normal (message : LiveServerMessage) (st : App) :
  fst (on_transcription message st) = Normal tt.
Proof. destruct (on_transcription_eq message st) as [think ->]. reflexivity. Qed.

Lemma on_turnComplete_normal (h : Host) (message : LiveServerMessage) (st : App) :
  fst (on_turnComplete h message st) = Normal tt.
Proof.
  destruct (turnComplete message) eqn:Htc.
  - rewrite on_turnComplete_eq by exact Htc. reflexivity.
  - rewrite on_turnComplete_skip by exact Htc. reflexivity.
Qed.

Lemma bind_normal {A B} (m : M A) (k : A -> M B) (st : App) (a : A) :
  fst (m st) = Normal a -> bind m k st = k a (snd (m st)).
Proof. unfold bind. destruct (m st) as [[a'|e] st1]; simpl; [intros [= ->]; reflexivity | discriminate]. Qed.

Lemma pair_of_exec {A} (m : M A) (st : App) (a : A) :
  fst (m st) = Normal a -> m st = (Normal a, exec m st).
Proof. unfold exec. destruct (m st) as [r st1]; simpl. intros ->. reflexivity. Qed.

(** When the audio branch returns, the four branches run in sequence. *)
Lemma onmessage_seq (h : Host) (message : LiveServerMessage) (st : App) :
  fst (on_audio h message st) = Normal tt ->
  onmessage h message st
  = (Normal tt,
     exec (on_turnComplete h message)
       (exec (on_transcription message)
          (exec (on_interrupted h message)
             (exec (on_audio h message) st)))).
Proof.
  intros Ha. unfold onmessage.
  rewrite (bind_normal _ _ _ tt Ha).
  rewrite (bind_normal _ _ _ tt (on_interrupted_normal _ _ _)).
  rewrite (bind_normal _ _ _ tt (on_transcription_normal _ _)).
  apply pair_of_exec, on_turnComplete_normal.
Qed.

Lemma onmessage_exec (h : Host) (message : LiveServerMessage) (st : App) :
  fst (on_audio h message st) = Normal tt ->
  exec (onmessage h message) st
  = exec (on_turnComplete h message)
      (exec (on_transcription message)
         (exec (on_interrupted h message)
            (exec (on_audio h message) st))).
Proof. intros Ha. unfold exec at 1. rewrite onmessage_seq by exact Ha. reflexivity. Qed.

(** The later branches leave the playback state and the effect log alone. *)
Lemma after_interruption_frame (h : Host) (message : LiveServerMessage) (st : App) :
  let st' := exec (on_turnComplete h message) (exec (on_transcription message) st) in
  audioSourcesRef st' = audioSourcesRef st
  /\ nextStartTimeRef st' = nextStartTimeRef st
  /\ isSpeaking st' = isSpeaking st
  /\ effects st' = effects st
  /\ outputContextRef st' = outputContextRef st.
Proof.
  unfold exec. destruct (on_transcription_eq message st) as [think ->]. simpl.
  destruct (turnComplete message) eqn:Htc.
  - rewrite on_turnComplete_eq by exact Htc. simpl. repeat split.
  - rewrite on_turnComplete_skip by exact Htc. simpl. repeat split.
Qed.

Lemma onmessage_chunk (h : Host) (message : LiveServerMessage) (st : App) (d : Z) :
  chunk_duration h message = Some d -> is_Some (outputContextRef st) ->
  let st' := exec (onmessage h message) st in
  fst (onmessage h message st) = Normal tt
  /\ nextStartTimeRef st' = Z.max (nextStartTimeRef st) (currentTime h) + d
  /\ effects st' =
       effects st
       ++ [SourceStart (createBufferSource h) (Z.max (nextStartTimeRef st) (currentTime h))]
  /\ outputContextRef st' = outputContextRef st.
Proof.
  unfold chunk_duration. intros Hd Hctx.
  destruct (base64Audio message) as [b|] eqn:Hb; [|discriminate].
  destruct (truthy b) eqn:Ht; [|discriminate].
  destruct (interrupted message) eqn:Hi; [discriminate|]. simpl in Hd.
  pose proof (on_audio_eq h message st b d Hb Ht Hd Hctx) as Ha.
  unfold exec. rewrite onmessage_seq by (rewrite Ha; reflexivity). simpl.
  destruct (after_interruption_frame h message
              (exec (on_interrupted h message) (exec (on_audio h message) st)))
    as (_ & Hn & _ & He & Hc).
  rewrite Hn, He, Hc. unfold exec.
  rewrite Ha. simpl. rewrite on_interrupted_skip by exact Hi. simpl.
  repeat split.
Qed.

(** C5. A message carrying the interruption flag (whose audio part, if it has
    one, decodes) is handled without raising, whichever sources refuse to
    stop: [stop] is called on every source active at that moment, which
    includes every source active before the message; afterwards the active set
    is empty, the schedule cursor is 0 and the speaking flag is clear.  The
    next chunk scheduled from that state starts at max(0, clock), and from any
    state a chunk starts no earlier than the device clock. *)
Theorem interruption_resets_playback
    (h : Host) (message : LiveServerMessage) (st : App) :
  interrupted message = true ->
  audio_decodes h message = true ->
  let active := audioSourcesRef (exec (on_audio h message) st) in
  let st' := exec (onmessage h message) st in
  fst (onmessage h message st) = Normal tt
  /\ (forall s, In s (audioSourcesRef st) -> In s active)
  /\ stopped_sources (effects st') = stopped_sources (effects st) ++ active
  /\ audioSourcesRef st' = []
  /\ nextStartTimeRef st' = 0
  /\ isSpeaking st' = false
  /\ (forall h2 m2 d, chunk_duration h2 m2 = Some d -> is_Some (outputContextRef st) ->
        start_times (effects (exec (onmessage h2 m2) st'))
        = start_times (effects st') ++ [Z.max 0 (currentTime h2)])
  /\ (forall h2 m2 d st2, chunk_duration h2 m2 = Some d -> is_Some (outputContextRef st2) ->
        exists t, start_times (effects (exec (onmessage h2 m2) st2))
                  = start_times (effects st2) ++ [t]
                  /\ currentTime h2 <= t).
Proof.
  intros Hi Hdec active st'.
  destruct (on_audio_normal h message st Hdec) as [Ha Hin].
  assert (Hst' : st' = exec (on_turnComplete h message)
                         (exec (on_transcription message)
                            (exec (on_interrupted h message)
                               (exec (on_audio h message) st)))).
  { subst st'. unfold exec at 1. rewrite onmessage_seq by exact Ha. reflexivity. }
  destruct (after_interruption_frame h message
              (exec (on_interrupted h message) (exec (on_audio h message) st)))
    as (Hs & Hn & Hk & He & Hc).
  rewrite <- Hst' in Hs, Hn, Hk, He, Hc.
  assert (Hint : exec (on_interrupted h message) (exec (on_audio h message) st)
                 = with_isSpeaking false
                     (with_nextStartTimeRef 0
                        (with_audioSourcesRef []
                           (with_effects
                              (effects (exec (on_audio h message) st)
                               ++ List.map SourceStop active)
                              (exec (on_audio h message) st))))).
  { unfold exec at 1. rewrite on_interrupted_eq by exact Hi. reflexivity. }
  rewrite Hint in Hs, Hn, Hk, He, Hc. simpl in Hs, Hn, Hk, He, Hc.
  assert (Hstops : stopped_sources (effects (exec (on_audio h message) st))
                   = stopped_sources (effects st)).
  { unfold audio_decodes in Hdec. unfold exec.
    destruct (base64Audio message) as [b|] eqn:Hb;
      [|rewrite on_audio_skip by (left; rewrite Hb; exact I); reflexivity].
    destruct (truthy b) eqn:Ht;
      [|rewrite on_audio_skip by (left; rewrite Hb; exact Ht); reflexivity].
    destruct (outputContextRef st) as [c|] eqn:Hctx;
      [|rewrite on_audio_skip by (right; exact Hctx); reflexivity].
    apply bool_decide_eq_true in Hdec as [d Hd].
    rewrite (on_audio_eq h message st b d) by eauto. simpl.
    rewrite stopped_sources_app. simpl. apply app_nil_r. }
  assert (Hctx' : outputContextRef (exec (on_audio h message) st) = outputContextRef st).
  { unfold audio_decodes in Hdec. unfold exec.
    destruct (base64Audio message) as [b|] eqn:Hb;
      [|rewrite on_audio_skip by (left; rewrite Hb; exact I); reflexivity].
    destruct (truthy b) eqn:Ht;
      [|rewrite on_audio_skip by (left; rewrite Hb; exact Ht); reflexivity].
    destruct (outputContextRef st) as [c|] eqn:Hctx;
      [|rewrite on_audio_skip by (right; exact Hctx); exact Hctx].
    apply bool_decide_eq_true in Hdec as [d Hd].
    rewrite (on_audio_eq h message st b d) by eauto. simpl. exact Hctx. }
  split; [rewrite onmessage_seq by exact Ha; reflexivity|].
  split; [exact Hin|].
  split; [rewrite He, stopped_sources_app, stopped_sources_map, Hstops; reflexivity|].
  split; [exact Hs|]. split; [exact Hn|]. split; [exact Hk|].
  split.
  - intros h2 m2 d Hd Hsome.
    assert (Hsome' : is_Some (outputContextRef st')) by (rewrite Hc, Hctx'; exact Hsome).
    destruct (onmessage_chunk h2 m2 st' d Hd Hsome') as (_ & _ & He2 & _).
    rewrite He2, start_times_app, Hn. reflexivity.
  - intros h2 m2 d st2 Hd Hsome.
    destruct (onmessage_chunk h2 m2 st2 d Hd Hsome) as (_ & _ & He2 & _).
    exists (Z.max (nextStartTimeRef st2) (currentTime h2)).
    rewrite He2, start_times_app. split; [reflexivity | lia].
Qed.

Lemma interruption_resets_playback_witness :
  interrupted interruption = true
  /\ audio_decodes sample_host interruption = true
  /\ stopped_sources (effects (exec (onmessage sample_host interruption) playing))
     = [1%nat; 2%nat]
  /\ audioSourcesRef (exec (onmessage sample_host interruption) playing) = []
  /\ nextStartTimeRef (exec (onmessage sample_host interruption) playing) = 0
  /\ isSpeaking (exec (onmessage sample_host interruption) playing) = false.
Proof.
  destruct (interruption_resets_playback sample_host interruption playing eq_refl eq_refl)
    as (_ & _ & Hstop & Hset & Hcur & Hspk & _).
  repeat split; assumption.
Defined.

Lemma on_audio_untouched (h : Host) (message : LiveServerMessage) :
  respects transcript_untouched (on_audio h message).
Proof. unfold on_audio. frame; split; reflexivity. Qed.

Lemma on_interrupted_untouched (h : Host) (message : LiveServerMessage) :
  respects transcript_untouched (on_interrupted h message).
Proof. unfold on_interrupted. frame; split; reflexivity. Qed.

(** The audio and interruption branches leave the log and the pending
    buffer alone, whether or not decoding succeeds. *)
Lemma playback_branches_frame (h : Host) (message : LiveServerMessage) (st : App) :
  let s2 := exec (on_interrupted h message) (exec (on_audio h message) st) in
  transcriptionRef s2 = transcriptionRef st /\ transcriptions s2 = transcriptions st.
Proof.
  cbv zeta.
  pose proof (on_audio_untouched h message st) as [H1 H2].
  pose proof (on_interrupted_untouched h message (exec (on_audio h message) st)) as [H3 H4].
  unfold exec in *. split; congruence.
Qed.

(** ** The turn-complete flush *)

(** C3. On a message with the turn-complete flag (whose audio part, if any,
    decodes), both sides of the pending buffer, including the fragment this
    message itself carries, are filtered; the log grows by a user entry exactly
    when the filtered input is non-empty, followed by a model entry exactly
    when the filtered output is non-empty; the pending buffer is empty
    afterwards; when both sides filter to the empty string the log is
    unchanged. *)
Theorem turn_complete_flush (h : Host) (message : LiveServerMessage) (st : App) :
  turnComplete message = true ->
  audio_decodes h message = true ->
  let pending := accumulate message (transcriptionRef st) in
  let cleanedIn := filterHallucinations (input pending) in
  let cleanedOut := filterHallucinations (output pending) in
  let st' := exec (onmessage h message) st in
  transcriptions st' =
    transcriptions st
    ++ (if truthy cleanedIn
        then [{| id := random h 0; role := user; text := cleanedIn;
                 timestamp := dateNow h 0 |}]
        else [])
    ++ (if truthy cleanedOut
        then [{| id := random h 1; role := model; text := cleanedOut;
                 timestamp := dateNow h 1 |}]
        else [])
  /\ transcriptionRef st' = empty_turn
  /\ (cleanedIn = [] -> cleanedOut = [] -> transcriptions st' = transcriptions st).
Proof.
  intros Htc Hdec pending cleanedIn cleanedOut st'.
  destruct (on_audio_normal h message st Hdec) as [Ha _].
  destruct (playback_branches_frame h message st) as [Hbuf0 Hlog0].
  assert (Hlog : transcriptions st' =
                 flush_items h cleanedIn cleanedOut (transcriptions st)
                 /\ transcriptionRef st' = empty_turn).
  { subst st' cleanedIn cleanedOut pending. rewrite <- Hbuf0, <- Hlog0.
    rewrite onmessage_exec by exact Ha.
    generalize (exec (on_interrupted h message) (exec (on_audio h message) st)).
    intros s2. unfold exec.
    destruct (on_transcription_eq message s2) as [think ->]. cbn [snd].
    rewrite on_turnComplete_eq by exact Htc. split; reflexivity. }
  destruct Hlog as [Hlog Hbuf]. rewrite Hlog. unfold flush_items.
  split; [|split; [exact Hbuf|]].
  - destruct (truthy cleanedIn), (truthy cleanedOut); simpl;
      rewrite <- ?app_assoc, ?app_nil_r; reflexivity.
  - intros -> ->. reflexivity.
Qed.

Lemma turn_complete_flush_witness :
  turnComplete turn_complete = true
  /\ audio_decodes sample_host turn_complete = true
  /\ transcriptions (exec (onmessage sample_host turn_complete) turn_pending)
     = [ {| id := js "0.5"; role := user; text := js "mala bhuk lagli"; timestamp := 1000 |};
         {| id := js "0.5"; role := model; text := js "chala jevayla"; timestamp := 1000 |} ]
  /\ transcriptionRef (exec (onmessage sample_host turn_complete) turn_pending) = empty_turn.
Proof.
  destruct (turn_complete_flush sample_host turn_complete turn_pending eq_refl eq_refl)
    as (Hlog & Hbuf & _).
  repeat split; assumption.
Defined.

(** ** The playback schedule *)

Lemma schedule_length (c : Z) (cs : list (Z * Z)) :
  length (schedule c cs) = length cs.
Proof.
  revert c. induction cs as [|[now d] cs IH]; intros c; simpl; [reflexivity|].
  f_equal. apply IH.
Qed.

Lemma schedule_not_past (c : Z) (cs : list (Z * Z)) (i : nat) (now d s : Z) :
  cs !! i = Some (now, d) -> schedule c cs !! i = Some s -> now <= s.
Proof.
  revert c i. induction cs as [|[now0 d0] cs IH]; intros c i Hc Hs; [discriminate|].
  destruct i as [|i]; simpl in *.
  - injection Hc as -> ->. injection Hs as <-. lia.
  - eapply IH; eassumption.
Qed.

Lemma schedule_next (c : Z) (cs : list (Z * Z)) (i : nat) (now d s now' d' s' : Z) :
  cs !! i = Some (now, d) -> schedule c cs !! i = Some s ->
  cs !! S i = Some (now', d') -> schedule c cs !! S i = Some s' ->
  s' = Z.max (s + d) now'.
Proof.
  revert c i. induction cs as [|[now0 d0] cs IH]; intros c i Hc Hs Hc' Hs'; [discriminate|].
  destruct i as [|i]; simpl in *.
  - injection Hc as -> ->. injection Hs as <-.
    destruct cs as [|[now1 d1] cs]; [discriminate|]. simpl in *.
    injection Hc' as -> ->. injection Hs' as <-. reflexivity.
  - eapply IH; eassumption.
Qed.

Lemma cursor_after_take (c : Z) (cs : list (Z * Z)) (i : nat) (now d s : Z) :
  cs !! i = Some (now, d) -> schedule c cs !! i = Some s ->
  cursor_after c (take (S i) cs) = s + d.
Proof.
  revert c i. induction cs as [|[now0 d0] cs IH]; intros c i Hc Hs; [discriminate|].
  destruct i as [|i]; simpl in *.
  - injection Hc as -> ->. injection Hs as <-. reflexivity.
  - unfold cursor_after in *. simpl. eapply IH; eassumption.
Qed.

Lemma deliver_cons (hm : Host * LiveServerMessage) (ms : list (Host * LiveServerMessage))
    (st : App) :
  deliver (hm :: ms) st = deliver ms (exec (onmessage (fst hm) (snd hm)) st).
Proof. reflexivity. Qed.

Lemma deliver_chunks (ms : list (Host * LiveServerMessage)) (st : App) :
  is_Some (outputContextRef st) -> Forall is_chunk ms ->
  start_times (effects (deliver ms st))
  = start_times (effects st) ++ schedule (nextStartTimeRef st) (timing ms)
  /\ nextStartTimeRef (deliver ms st) = cursor_after (nextStartTimeRef st) (timing ms).
Proof.
  intros Hctx Hall. revert st Hctx.
  induction Hall as [|[h m] ms (d & Hd & Hpos) _ IH]; intros st Hctx.
  - simpl. rewrite app_nil_r. auto.
  - rewrite deliver_cons. simpl in Hd |- *.
    destruct (onmessage_chunk h m st d Hd Hctx) as (_ & Hn & He & Hc).
    destruct (IH (exec (onmessage h m) st)) as [IH1 IH2]; [rewrite Hc; exact Hctx|].
    rewrite IH1, IH2, Hn, He, start_times_app, Hd. simpl.
    rewrite <- app_assoc. auto.
Qed.

Lemma timing_lookup (ms : list (Host * LiveServerMessage)) (i : nat)
    (h : Host) (m : LiveServerMessage) (d : Z) :
  ms !! i = Some (h, m) -> chunk_duration h m = Some d ->
  timing ms !! i = Some (currentTime h, d).
Proof.
  intros Hm Hd. unfold timing. rewrite list_lookup_fmap, Hm. simpl. rewrite Hd. reflexivity.
Qed.

Lemma timing_take (ms : list (Host * LiveServerMessage)) (n : nat) :
  timing (take n ms) = take n (timing ms).
Proof. unfold timing. apply fmap_take. Qed.

(** C4, as the code has it.  For chunks of non-negative duration delivered in
    arrival order with no interruption, one [start] is issued per chunk; the
    first starts at max(cursor, clock); each later chunk starts at
    max(start(i) + d(i), clock(i+1)), so starts never decrease, chunks never
    overlap, no chunk starts before the device clock, and start(i+1) =
    start(i) + d(i) exactly when the chunk arrives before the audio scheduled so
    far has run out; after each schedule the cursor stands at that chunk's
    start plus its duration. *)
Theorem chunk_schedule (ms : list (Host * LiveServerMessage)) (st : App) :
  is_Some (outputContextRef st) ->
  Forall is_chunk ms ->
  exists starts,
    start_times (effects (deliver ms st)) = start_times (effects st) ++ starts
    /\ length starts = length ms
    /\ (forall h m s, ms !! 0%nat = Some (h, m) -> starts !! 0%nat = Some s ->
          s = Z.max (nextStartTimeRef st) (currentTime h))
    /\ (forall i h m d s h' m' s',
          ms !! i = Some (h, m) -> chunk_duration h m = Some d -> starts !! i = Some s ->
          ms !! S i = Some (h', m') -> starts !! S i = Some s' ->
          s' = Z.max (s + d) (currentTime h')
          /\ s <= s' /\ s + d <= s'
          /\ (currentTime h' <= s + d -> s' = s + d))
    /\ (forall i h m s, ms !! i = Some (h, m) -> starts !! i = Some s -> currentTime h <= s)
    /\ (forall i h m d s,
          ms !! i = Some (h, m) -> chunk_duration h m = Some d -> starts !! i = Some s ->
          nextStartTimeRef (deliver (take (S i) ms) st) = s + d).
Proof.
  intros Hctx Hall.
  exists (schedule (nextStartTimeRef st) (timing ms)).
  destruct (deliver_chunks ms st Hctx Hall) as [Hstarts _].
  assert (Hdur : forall i h m, ms !! i = Some (h, m) ->
                   exists d, chunk_duration h m = Some d /\ 0 <= d).
  { intros i h m Hm. rewrite Forall_lookup in Hall. apply (Hall i (h, m) Hm). }
  split; [exact Hstarts|].
  split; [rewrite schedule_length; unfold timing; apply length_fmap|].
  split.
  { intros h m s Hm Hs. destruct (Hdur _ _ _ Hm) as (d & Hd & _).
    pose proof (timing_lookup ms 0 h m d Hm Hd) as Ht.
    destruct (timing ms) as [|[now0 d0] cs]; [discriminate|]. simpl in *.
    injection Ht as -> ->. injection Hs as <-. reflexivity. }
  split.
  { intros i h m d s h' m' s' Hm Hd Hs Hm' Hs'.
    destruct (Hdur _ _ _ Hm') as (d' & Hd' & _).
    destruct (Hdur _ _ _ Hm) as (d0 & Hd0 & Hpos).
    assert (d0 = d) as -> by congruence.
    pose proof (schedule_next _ _ _ _ _ _ _ _ _
                  (timing_lookup ms i h m d Hm Hd) Hs
                  (timing_lookup ms (S i) h' m' d' Hm' Hd') Hs') as ->.
    repeat split; lia. }
  split.
  { intros i h m s Hm Hs. destruct (Hdur _ _ _ Hm) as (d & Hd & _).
    exact (schedule_not_past _ _ _ _ _ _ (timing_lookup ms i h m d Hm Hd) Hs). }
  intros i h m d s Hm Hd Hs.
  assert (Htake : Forall is_chunk (take (S i) ms)) by (apply Forall_take, Hall).
  destruct (deliver_chunks (take (S i) ms) st Hctx Htake) as [_ ->].
  rewrite timing_take.
  exact (cursor_after_take _ _ _ _ _ _ (timing_lookup ms i h m d Hm Hd) Hs).
Qed.

Lemma is_chunk_late_chunks : Forall is_chunk late_chunks.
Proof.
  unfold late_chunks.
  repeat (apply Forall_cons; split; [exists 10; split; [reflexivity | lia]|]).
  apply Forall_nil_2.
Qed.

Lemma chunk_schedule_witness :
  is_Some (outputContextRef listening)
  /\ Forall is_chunk late_chunks
  /\ exists starts,
       start_times (effects (deliver late_chunks listening))
       = start_times (effects listening) ++ starts
       /\ length starts = length late_chunks.
Proof.
  assert (Hctx : is_Some (outputContextRef listening)) by (exists 1%nat; reflexivity).
  split; [exact Hctx|]. split; [exact is_chunk_late_chunks|].
  destruct (chunk_schedule late_chunks listening Hctx is_chunk_late_chunks)
    as (starts & Hs & Hlen & _).
  exists starts. split; assumption.
Defined.

(** C4 as stated fails: with the cursor at 0, a chunk of 10 frames scheduled at
    clock 0 and a second one arriving at clock 100 start at 0 and at 100, not
    at 0 and 0 + 10. *)
Lemma late_chunk_not_contiguous :
  chunk_duration (host_at 0) audio_chunk = Some 10
  /\ start_times (effects (deliver late_chunks listening)) = [0; 100]
  /\ ~ (forall i now d s s',
          timing late_chunks !! i = Some (now, d) ->
          start_times (effects (deliver late_chunks listening)) !! i = Some s ->
          start_times (effects (deliver late_chunks listening)) !! S i = Some s' ->
          s' = s + d).
Proof.
  split; [reflexivity|]. split; [reflexivity|].
  intros H. specialize (H 0%nat 0 10 0 100 eq_refl eq_refl eq_refl). discriminate H.
Qed.

(** ** handleTextEnter *)

Lemma handleTextEnter_issue_eq (h : Host) (text : jsstring) (st : App) :
  truthy (trim text) = true ->
  handleTextEnter_issue h false text st
  = (Normal true,
     with_effects (effects st ++ [ChatSendMessage (history_of (transcriptions st)) text])
       (with_isThinking true
          (with_inputValue []
             (with_transcriptions
                (transcriptions st
                 ++ [{| id := random h 0; role := user; text := text;
                        timestamp := dateNow h 0 |}])
                st)))).
Proof.
  intros Ht. unfold handleTextEnter_issue. rewrite Ht. simpl.
  destruct st; reflexivity.
Qed.

(** When building the client or the chat raises, the exception escapes the
    handler after the user entry has been appended. *)
Lemma handleTextEnter_issue_setup_throws (h : Host) (text : jsstring) (st : App) :
  truthy (trim text) = true ->
  handleTextEnter_issue h true text st
  = (Throw RequestError,
     with_isThinking true
       (with_inputValue []
          (with_transcriptions
             (transcriptions st
              ++ [{| id := random h 0; role := user; text := text;
                     timestamp := dateNow h 0 |}])
             st))).
Proof.
  intros Ht. unfold handleTextEnter_issue. rewrite Ht. simpl.
  destruct st; reflexivity.
Qed.

Lemma handleTextEnter_settle_rejected (h : Host) (e : Exn) (st : App) :
  handleTextEnter_settle h (Rejected e) st
  = (Normal tt, with_isThinking false (with_effects (effects st ++ [ConsoleError e]) st)).
Proof. destruct st; reflexivity. Qed.

Lemma handleTextEnter_settle_resolved (h : Host) (reply : option jsstring) (st : App) :
  handleTextEnter_settle h (Resolved reply) st
  = (Normal tt,
     with_isThinking false
       (with_transcriptions
          (transcriptions st
           ++ [{| id := random h 1; role := model;
                  text := filterHallucinations (or_empty reply);
                  timestamp := dateNow h 1 |}])
          st)).
Proof. destruct st; reflexivity. Qed.

Lemma handleTextEnter_eq (h : Host) (r : SendResult) (text : jsstring) (st : App) :
  truthy (trim text) = true ->
  handleTextEnter h false r text st
  = handleTextEnter_settle h r (exec (handleTextEnter_issue h false text) st).
Proof.
  intros Ht. unfold handleTextEnter, exec, bind.
  rewrite handleTextEnter_issue_eq by exact Ht. reflexivity.
Qed.

(** The request is issued exactly when the text does not trim to the empty
    string and building the client and the chat (lines 220-230) does not
    raise. *)
Lemma request_issued_iff (h : Host) (setupThrows : bool) (text : jsstring) (st : App) :
  fst (handleTextEnter_issue h setupThrows text st) = Normal true
  <-> truthy (trim text) = true /\ setupThrows = false.
Proof.
  split.
  - destruct (truthy (trim text)) eqn:Ht.
    + destruct setupThrows; [|auto].
      rewrite handleTextEnter_issue_setup_throws by exact Ht. discriminate.
    + unfold handleTextEnter_issue. rewrite Ht. discriminate.
  - intros [Ht ->]. rewrite handleTextEnter_issue_eq by exact Ht. reflexivity.
Qed.

(** C1, as the code has it.  In every call in which the request to the reply
    transport is issued (the text does not trim to the empty string and the
    client and the chat of lines 220-230 were built without raising) and is
    then rejected with [e], the call returns normally: the failure is logged
    to the console and swallowed, the thinking flag ends false, and no model
    entry is appended; the log holds exactly one new entry, the user's text,
    which was appended before the request was issued.  The part of the handler
    that runs once the request has settled clears the thinking flag and leaves
    the log alone from whatever state it resumes in.  A call in which building
    the client or the chat raises issues no request and is not covered. *)
Theorem sendText_failure
    (h : Host) (setupThrows : bool) (e : Exn) (text : jsstring) (st : App) :
  fst (handleTextEnter_issue h setupThrows text st) = Normal true ->
  let st' := exec (handleTextEnter h setupThrows (Rejected e) text) st in
  fst (handleTextEnter h setupThrows (Rejected e) text st) = Normal tt
  /\ isThinking st' = false
  /\ transcriptions st' =
       transcriptions st
       ++ [{| id := random h 0; role := user; text := text; timestamp := dateNow h 0 |}]
  /\ effects st' =
       effects st
       ++ [ChatSendMessage (history_of (transcriptions st)) text; ConsoleError e]
  /\ (forall st2,
        let s := exec (handleTextEnter_settle h (Rejected e)) st2 in
        fst (handleTextEnter_settle h (Rejected e) st2) = Normal tt
        /\ isThinking s = false
        /\ transcriptions s = transcriptions st2
        /\ effects s = effects st2 ++ [ConsoleError e]).
Proof.
  intros Hissued. apply request_issued_iff in Hissued as [Ht ->].
  intros st'. subst st'. unfold exec.
  rewrite handleTextEnter_eq by exact Ht. unfold exec.
  rewrite handleTextEnter_issue_eq by exact Ht.
  rewrite handleTextEnter_settle_rejected. simpl.
  split; [reflexivity|]. split; [reflexivity|]. split; [reflexivity|].
  split; [rewrite <- app_assoc; reflexivity|].
  intros st2. repeat split.
Qed.

Lemma sendText_failure_witness :
  fst (handleTextEnter_issue sample_host false (js "hi") (mount [])) = Normal true
  /\ isThinking (exec (handleTextEnter sample_host false (Rejected RequestError) (js "hi"))
                   (mount [])) = false
  /\ transcriptions (exec (handleTextEnter sample_host false (Rejected RequestError) (js "hi"))
                       (mount []))
     = [{| id := js "0.5"; role := user; text := js "hi"; timestamp := 1000 |}].
Proof.
  destruct (sendText_failure sample_host false RequestError (js "hi") (mount []) eq_refl)
    as (_ & Hthink & Hlog & _).
  repeat split; assumption.
Defined.

(** C1 as stated fails: a rejected request on an empty log leaves one entry,
    the user's text, so an entry was appended by that call. *)
Lemma sendText_failure_appends_user_entry :
  transcriptions (mount []) = []
  /\ transcriptions (exec (handleTextEnter sample_host false (Rejected RequestError) (js "hi"))
                       (mount []))
     = [{| id := js "0.5"; role := user; text := js "hi"; timestamp := 1000 |}]
  /\ transcriptions (exec (handleTextEnter sample_host false (Rejected RequestError) (js "hi"))
                       (mount []))
     <> transcriptions (mount []).
Proof. split; [reflexivity|]. split; [reflexivity|]. discriminate. Qed.

(** C9. When the request resolves, the log grows by exactly two entries: the
    user's text as typed, unfiltered, then a model entry holding the filtered
    reply, also when the filtered reply is the empty string.  The part of the
    handler that runs once the request has settled appends the model entry to
    whatever log it resumes with. *)
Theorem sendText_success (h : Host) (reply : option jsstring) (typed : jsstring) (st : App) :
  truthy (trim typed) = true ->
  let st' := exec (handleTextEnter h false (Resolved reply) typed) st in
  fst (handleTextEnter h false (Resolved reply) typed st) = Normal tt
  /\ transcriptions st' =
       transcriptions st
       ++ [{| id := random h 0; role := user; text := typed; timestamp := dateNow h 0 |};
           {| id := random h 1; role := model;
              text := filterHallucinations (or_empty reply); timestamp := dateNow h 1 |}]
  /\ (filterHallucinations (or_empty reply) = [] ->
        exists entry, last (transcriptions st') = Some entry
                      /\ role entry = model /\ text entry = [])
  /\ isThinking st' = false
  /\ (forall st2,
        transcriptions (exec (handleTextEnter_settle h (Resolved reply)) st2)
        = transcriptions st2
          ++ [{| id := random h 1; role := model;
                 text := filterHallucinations (or_empty reply);
                 timestamp := dateNow h 1 |}]).
Proof.
  intros Ht st'.
  assert (Hlog : transcriptions st' =
                 transcriptions st
                 ++ [{| id := random h 0; role := user; text := typed;
                        timestamp := dateNow h 0 |};
                     {| id := random h 1; role := model;
                        text := filterHallucinations (or_empty reply);
                        timestamp := dateNow h 1 |}]).
  { subst st'. unfold exec. rewrite handleTextEnter_eq by exact Ht. unfold exec.
    rewrite handleTextEnter_issue_eq by exact Ht.
    rewrite handleTextEnter_settle_resolved. simpl.
    rewrite <- app_assoc. reflexivity. }
  split.
  { rewrite handleTextEnter_eq by exact Ht.
    rewrite handleTextEnter_settle_resolved. reflexivity. }
  split; [exact Hlog|].
  split.
  { intros Hempty. eexists. rewrite Hlog. split.
    - rewrite last_app. reflexivity.
    - simpl. auto. }
  split.
  { subst st'. unfold exec. rewrite handleTextEnter_eq by exact Ht.
    rewrite handleTextEnter_settle_resolved. reflexivity. }
  intros st2. unfold exec. rewrite handleTextEnter_settle_resolved. reflexivity.
Qed.

Lemma sendText_success_witness :
  truthy (trim (js " kay re ")) = true
  /\ transcriptions
       (exec (handleTextEnter sample_host false (Resolved (Some [2310; 2312]%N)) (js " kay re "))
          (mount []))
     = [{| id := js "0.5"; role := user; text := js " kay re "; timestamp := 1000 |};
        {| id := js "0.5"; role := model; text := []; timestamp := 1000 |}].
Proof.
  destruct (sendText_success sample_host (Some [2310; 2312]%N) (js " kay re ") (mount [])
              eq_refl) as (_ & Hlog & _).
  split; [reflexivity | exact Hlog].
Defined.

(** C10. When the text trims to the empty string the call returns at once:
    the state, including the log, the thinking flag and the record of host
    calls, is exactly what it was, so no request is issued. *)
Theorem sendText_blank_noop (h : Host) (setupThrows : bool) (r : SendResult)
    (text : jsstring) (st : App) :
  trim text = [] ->
  handleTextEnter h setupThrows r text st = (Normal tt, st)
  /\ handleTextEnter_issue h setupThrows text st = (Normal false, st)
  /\ transcriptions (exec (handleTextEnter h setupThrows r text) st) = transcriptions st
  /\ isThinking (exec (handleTextEnter h setupThrows r text) st) = isThinking st
  /\ effects (exec (handleTextEnter h setupThrows r text) st) = effects st.
Proof.
  intros Ht.
  assert (Hissue : handleTextEnter_issue h setupThrows text st = (Normal false, st)).
  { unfold handleTextEnter_issue. rewrite Ht. reflexivity. }
  assert (Hall : handleTextEnter h setupThrows r text st = (Normal tt, st)).
  { unfold handleTextEnter, bind. rewrite Hissue. reflexivity. }
  unfold exec. rewrite Hall. auto.
Qed.

Lemma sendText_blank_noop_witness :
  trim (js "   ") = []
  /\ handleTextEnter sample_host false (Resolved (Some (js "hello"))) (js "   ") playing
     = (Normal tt, playing).
Proof.
  split; [reflexivity|].
  apply (sendText_blank_noop sample_host false (Resolved (Some (js "hello"))) (js "   ")
           playing eq_refl).
Defined.

(** ** startSession *)

Lemma startSession_untouched (sh : StartHost) :
  respects transcript_untouched (startSession sh).
Proof. unfold startSession, startSession_try. frame; split; reflexivity. Qed.

Ltac distinct_effects :=
  repeat (apply NoDup_cons; split;
          [rewrite ?elem_of_cons, elem_of_nil; intuition discriminate|]);
  apply NoDup_nil_2.

Ltac run_start sh :=
  unfold exec, startSession, startSession_try, try_catch, host_call, onopen, bind,
    emit, setStatus, modify, get, ret, throw; simpl;
  repeat match goal with
    | |- context [match fails sh ?s with _ => _ end] =>
        destruct (fails sh s) eqn:?; simpl
    end.


Example start_on_willing_host :
  status (exec (startSession willing_host) (mount [])) = connected
  /\ effects (exec (startSession willing_host) (mount []))
     = (HostCall <$> [GetUserMedia; NewGoogleGenAI; NewInputContext; NewOutputContext;
                      ResumeInput; ResumeOutput; CreateAnalysers; CreateOutputNode;
                      LiveConnect])
       ++ [ProcessorConnect 0%nat].
Proof. split; reflexivity. Qed.

(** C7. When one of the host calls that [startSession] makes raises or
    rejects, the failure is caught: the call returns normally with status
    error, the log (and the pending buffer) unmodified, and neither a
    transport handle nor a capture processor installed.  Nothing is retried:
    no host call is made twice, and the console log of the failure is the last
    thing the call does. *)
Theorem start_failure (sh : StartHost) (st : App) (step : StartStep) (e : Exn) :
  fails sh step = Some e ->
  (step = NewInputContext -> inputContextRef st = None) ->
  (step = NewOutputContext -> outputContextRef st = None) ->
  let st' := exec (startSession sh) st in
  fst (startSession sh st) = Normal tt
  /\ status st' = error
  /\ transcriptions st' = transcriptions st
  /\ transcriptionRef st' = transcriptionRef st
  /\ sessionRef st' = sessionRef st
  /\ scriptProcessorRef st' = scriptProcessorRef st
  /\ exists calls e',
       effects st' = effects st ++ calls
       /\ In (HostCall GetUserMedia) calls
       /\ last calls = Some (ConsoleError e')
       /\ NoDup calls.
Proof.
  intros Hfail Hin Hout st'.
  destruct (startSession_untouched sh st) as [Hlog Hbuf].
  split; [|split; [|split; [exact Hlog|split; [exact Hbuf|]]]]; subst st'; clear Hlog Hbuf;
    destruct st as [s t k iv tr [ic|] [oc|] se sp n srcs tref es]; simpl in Hin, Hout;
    run_start sh;
    try reflexivity;
    try (exfalso; destruct step; try congruence;
         (discriminate (Hin eq_refl) || discriminate (Hout eq_refl)));
    (split; [reflexivity|]; split; [reflexivity|];
     eexists _, _;
     split; [rewrite <- !app_assoc; reflexivity|];
     split; [simpl; tauto|];
     split; [reflexivity|];
     simpl; distinct_effects).
Qed.

Lemma start_failure_witness :
  fails denying_host GetUserMedia = Some PermissionError
  /\ status (exec (startSession denying_host) (mount [])) = error
  /\ transcriptions (exec (startSession denying_host) (mount [])) = [].
Proof.
  destruct (start_failure denying_host (mount []) GetUserMedia PermissionError eq_refl)
    as (_ & Hstatus & Hlog & _); try discriminate.
  repeat split; assumption.
Defined.

(** ** The log is append-only *)

Lemma flush_items_grows (h : Host) (cleanedIn cleanedOut : jsstring)
    (prev : list TranscriptionEntry) :
  prev `prefix_of` flush_items h cleanedIn cleanedOut prev.
Proof.
  unfold flush_items.
  destruct (truthy cleanedIn), (truthy cleanedOut); simpl.
  - rewrite <- app_assoc. apply prefix_app_r. reflexivity.
  - apply prefix_app_r. reflexivity.
  - apply prefix_app_r. reflexivity.
  - reflexivity.
Qed.

Ltac grows :=
  frame;
  unfold log_grows; simpl;
  first [ reflexivity
        | apply flush_items_grows
        | apply prefix_app_r; reflexivity ].

Lemma handle_grows (h : Host) (ev : Event) : respects log_grows (handle h ev).
Proof.
  destruct ev; simpl.
  - unfold startSession, startSession_try. grows.
  - unfold stopSession. grows.
  - unfold onmessage, on_audio, on_interrupted, on_transcription, on_turnComplete. grows.
  - unfold onerror, stopSession. grows.
  - unfold onclose, stopSession. grows.
  - unfold onended. grows.
  - unfold handleTextEnter_issue. grows.
  - unfold handleTextEnter_settle. grows.
  - unfold handleTextEnter, handleTextEnter_issue, handleTextEnter_settle. grows.
Qed.

Lemma run_grows (evs : list (Host * Event)) (st : App) : log_grows st (run evs st).
Proof.
  revert st. induction evs as [|[h ev] evs IH]; intros st; simpl.
  - reflexivity.
  - etransitivity; [|apply IH]. apply (handle_grows h ev st).
Qed.

(** C8. Under every sequence of events (start, stop, transport messages with
    their turn-complete flushes, transport error and close, end of playback,
    sendText as a whole or split around its pending request) the log after is
    the log before with entries added at its end: every entry keeps its
    position and its content, none is removed, and new entries come after the
    old ones in the order they were appended. *)
Theorem transcript_append_only (evs evs' : list (Host * Event)) (st : App) :
  (exists appended, transcriptions (run evs st) = transcriptions st ++ appended)
  /\ (forall i entry,
        transcriptions st !! i = Some entry ->
        transcriptions (run evs st) !! i = Some entry)
  /\ (exists later,
        transcriptions (run (evs ++ evs') st) = transcriptions (run evs st) ++ later).
Proof.
  split; [|split].
  - destruct (run_grows evs st) as [appended H]. exists appended. exact H.
  - intros i entry Hi. destruct (run_grows evs st) as [appended ->].
    apply lookup_app_l_Some, Hi.
  - unfold run. rewrite fold_left_app.
    destruct (run_grows evs' (fold_left step evs st)) as [later H].
    exists later. exact H.
Qed.

(** * Beyond the claims *)

(** ** More on filterHallucinations *)

Lemma trimStart_fixed (s : jsstring) :
  (forall c, head s = Some c -> isWhiteSpace c = false) -> trimStart s = s.
Proof.
  destruct s as [|c s]; simpl; [reflexivity|].
  intros H. rewrite (H c eq_refl). reflexivity.
Qed.

Lemma head_rev_last {A} (l : list A) : head (rev l) = last l.
Proof. rewrite <- (rev_involutive l) at 2. symmetry. apply last_rev_head. Qed.

Lemma trimEnd_fixed (s : jsstring) :
  (forall c, last s = Some c -> isWhiteSpace c = false) -> trimEnd s = s.
Proof.
  intros H. unfold trimEnd. rewrite trimStart_fixed.
  - apply rev_involutive.
  - intros c Hc. apply H. rewrite <- head_rev_last. exact Hc.
Qed.

Lemma trim_fixed (s : jsstring) :
  (forall c, head s = Some c -> isWhiteSpace c = false) ->
  (forall c, last s = Some c -> isWhiteSpace c = false) ->
  trim s = s.
Proof.
  intros Hh Hl. unfold trim. rewrite (trimStart_fixed s Hh). apply trimEnd_fixed, Hl.
Qed.

Lemma strip_non_7bit_fixed (s : jsstring) :
  Forall (fun c => (c <= 127)%N) s -> strip_non_7bit s = s.
Proof.
  induction 1 as [|c s Hc _ IH]; simpl; [reflexivity|].
  unfold in_7bit. apply N.leb_le in Hc. rewrite Hc. f_equal. exact IH.
Qed.

Lemma trim_Forall (P : N -> Prop) (s : jsstring) : Forall P s -> Forall P (trim s).
Proof.
  intros H. destruct (trim_split s) as (pre & post & Heq & _).
  rewrite Heq in H. apply Forall_app in H as [_ H]. apply Forall_app in H as [H _].
  exact H.
Qed.

Lemma filterHallucinations_fixed (s : jsstring) :
  Forall (fun c => (c <= 127)%N) s ->
  (forall c, head s = Some c -> isWhiteSpace c = false) ->
  (forall c, last s = Some c -> isWhiteSpace c = false) ->
  filterHallucinations s = s.
Proof.
  intros Hs Hh Hl. unfold filterHallucinations.
  rewrite (strip_non_7bit_fixed s Hs). apply trim_fixed; assumption.
Qed.

(** X1. Filtering is idempotent: text that has been filtered once passes
    through the filter unchanged, so committed entries are stable under
    re-filtering. *)
Theorem filterHallucinations_idempotent (text : jsstring) :
  filterHallucinations (filterHallucinations text) = filterHallucinations text.
Proof.
  apply filterHallucinations_fixed.
  - unfold filterHallucinations. apply trim_Forall, strip_non_7bit_Forall.
  - intros c. unfold filterHallucinations. apply trim_head.
  - intros c. unfold filterHallucinations. apply trim_last.
Qed.

Lemma trim_all_ws (s : jsstring) : all_ws s -> trim s = [].
Proof.
  intros H. assert (Hs : trimStart s = []).
  { induction H as [|c s Hc _ IH]; simpl; [reflexivity|]. rewrite Hc. exact IH. }
  unfold trim. rewrite Hs. reflexivity.
Qed.

Lemma trim_nil_all_ws (s : jsstring) : trim s = [] -> all_ws s.
Proof.
  intros H. destruct (trim_split s) as (pre & post & Heq & Hpre & Hpost).
  rewrite H in Heq. rewrite Heq. apply Forall_app. split; assumption.
Qed.

(** X2. The filter yields the empty string, so that no entry is committed for
    that side of a turn, exactly when every code unit of the text is either
    outside the 7-bit range or whitespace. *)
Theorem filterHallucinations_empty_iff (text : jsstring) :
  filterHallucinations text = []
  <-> Forall (fun c => (127 < c)%N \/ isWhiteSpace c = true) text.
Proof.
  unfold filterHallucinations. split.
  - intros H. apply trim_nil_all_ws in H. unfold all_ws, strip_non_7bit in H.
    rewrite List.Forall_forall in H. apply List.Forall_forall. intros c Hc.
    destruct (in_7bit c) eqn:H7.
    + right. apply H. apply filter_In. split; assumption.
    + left. unfold in_7bit in H7. apply N.leb_gt in H7. exact H7.
  - intros H. apply trim_all_ws. unfold all_ws, strip_non_7bit.
    apply List.Forall_forall. intros c Hc. apply filter_In in Hc as [Hin H7].
    rewrite List.Forall_forall in H. destruct (H c Hin) as [Hbig|Hws]; [|exact Hws].
    unfold in_7bit in H7. apply N.leb_le in H7. lia.
Qed.

(** ** Transcript fragments *)

Lemma on_transcription_output (message : LiveServerMessage) (st : App) (o : jsstring) :
  outputTranscription message = Some o ->
  on_transcription message st
  = (Normal tt,
     with_transcriptionRef
       {| input := input (transcriptionRef st); output := output (transcriptionRef st) ++ o |}
       st).
Proof. intros Ho. unfold on_transcription, accumulate. rewrite Ho. reflexivity. Qed.

Lemma on_audio_absent (h : Host) (message : LiveServerMessage) (st : App) :
  base64Audio message = None -> on_audio h message st = (Normal tt, st).
Proof. intros Hb. apply on_audio_skip. left. rewrite Hb. exact I. Qed.

(** The state in which a message without the turn-complete flag leaves the
    handler, when its audio part decodes. *)
Lemma onmessage_mid_turn (h : Host) (message : LiveServerMessage) (st : App) :
  turnComplete message = false -> audio_decodes h message = true ->
  exec (onmessage h message) st
  = exec (on_transcription message)
      (exec (on_interrupted h message) (exec (on_audio h message) st)).
Proof.
  intros Htc Hdec. destruct (on_audio_normal h message st Hdec) as [Ha _].
  rewrite onmessage_exec by exact Ha.
  unfold exec at 1. rewrite on_turnComplete_skip by exact Htc. reflexivity.
Qed.

Lemma onmessage_mid_turn_transcript (h : Host) (message : LiveServerMessage) (st : App) :
  turnComplete message = false -> audio_decodes h message = true ->
  transcriptionRef (exec (onmessage h message) st) = accumulate message (transcriptionRef st)
  /\ transcriptions (exec (onmessage h message) st) = transcriptions st.
Proof.
  intros Htc Hdec. rewrite onmessage_mid_turn by assumption.
  destruct (playback_branches_frame h message st) as [Hbuf Hlog].
  revert Hbuf Hlog.
  generalize (exec (on_interrupted h message) (exec (on_audio h message) st)).
  intros s2 Hbuf Hlog. unfold exec.
  destruct (on_transcription_eq message s2) as [think ->]. simpl.
  rewrite Hbuf, Hlog. auto.
Qed.

Lemma onmessage_turn_complete_log (h : Host) (message : LiveServerMessage) (st : App) :
  turnComplete message = true -> audio_decodes h message = true ->
  transcriptions (exec (onmessage h message) st)
  = flush_items h
      (filterHallucinations (input (accumulate message (transcriptionRef st))))
      (filterHallucinations (output (accumulate message (transcriptionRef st))))
      (transcriptions st).
Proof.
  intros Htc Hdec. destruct (on_audio_normal h message st Hdec) as [Ha _].
  destruct (playback_branches_frame h message st) as [Hbuf Hlog].
  rewrite <- Hbuf, <- Hlog. rewrite onmessage_exec by exact Ha.
  generalize (exec (on_interrupted h message) (exec (on_audio h message) st)).
  intros s2. unfold exec.
  destruct (on_transcription_eq message s2) as [think ->]. cbn [snd].
  rewrite on_turnComplete_eq by exact Htc. reflexivity.
Qed.

(** X3. A message that carries both an output and an input fragment appends
    the output fragment only: the input fragment is dropped, and (when the
    message has no audio) the thinking flag is not raised. *)
Theorem output_fragment_takes_precedence
    (h : Host) (message : LiveServerMessage) (st : App) (o i : jsstring) :
  outputTranscription message = Some o ->
  inputTranscription message = Some i ->
  turnComplete message = false ->
  audio_decodes h message = true ->
  let st' := exec (onmessage h message) st in
  output (transcriptionRef st') = output (transcriptionRef st) ++ o
  /\ input (transcriptionRef st') = input (transcriptionRef st)
  /\ transcriptions st' = transcriptions st
  /\ (base64Audio message = None -> isThinking st' = isThinking st).
Proof.
  intros Ho Hi Htc Hdec st'.
  destruct (onmessage_mid_turn_transcript h message st Htc Hdec) as [Hbuf Hlog].
  fold st' in Hbuf, Hlog. rewrite Hbuf. unfold accumulate. rewrite Ho. simpl.
  repeat split; try assumption.
  intros Hb. subst st'. rewrite onmessage_mid_turn by assumption.
  unfold exec. rewrite on_audio_absent by exact Hb. simpl.
  rewrite (on_transcription_output message _ o Ho). simpl.
  destruct (interrupted message) eqn:Hint.
  - rewrite on_interrupted_eq by exact Hint. reflexivity.
  - rewrite on_interrupted_skip by exact Hint. reflexivity.
Qed.

Lemma output_fragment_takes_precedence_witness :
  outputTranscription (both_fragments (js "chala") (js "mala")) = Some (js "chala")
  /\ inputTranscription (both_fragments (js "chala") (js "mala")) = Some (js "mala")
  /\ transcriptionRef
       (exec (onmessage sample_host (both_fragments (js "chala") (js "mala"))) playing)
     = {| input := []; output := js "chala" |}.
Proof.
  destruct (output_fragment_takes_precedence sample_host
              (both_fragments (js "chala") (js "mala")) playing (js "chala") (js "mala")
              eq_refl eq_refl eq_refl eq_refl) as (Hout & Hin & _).
  split; [reflexivity|]. split; [reflexivity|].
  destruct (transcriptionRef _) as [i o]. simpl in Hout, Hin. rewrite Hout, Hin.
  reflexivity.
Defined.

Lemma deliver_app (ms1 ms2 : list (Host * LiveServerMessage)) (st : App) :
  deliver (ms1 ++ ms2) st = deliver ms2 (deliver ms1 st).
Proof. unfold deliver, run. rewrite fmap_app, fold_left_app. reflexivity. Qed.

Lemma deliver_mid_turn (ms : list (Host * LiveServerMessage)) (st : App) :
  Forall mid_turn ms ->
  transcriptionRef (deliver ms st) = accumulated ms (transcriptionRef st)
  /\ transcriptions (deliver ms st) = transcriptions st.
Proof.
  intros Hall. revert st. induction Hall as [|[h m] ms [Htc Hdec] _ IH]; intros st.
  - split; reflexivity.
  - rewrite deliver_cons. simpl in Htc, Hdec |- *.
    destruct (onmessage_mid_turn_transcript h m st Htc Hdec) as [Hbuf Hlog].
    destruct (IH (exec (onmessage h m) st)) as [IH1 IH2].
    rewrite IH1, IH2, Hbuf, Hlog. split; reflexivity.
Qed.

(** X4. Between turn completions the log does not change and the pending
    buffer is the fold of the fragments in arrival order; the message that
    completes the turn commits the filter of each accumulated side, so the
    filter sees the concatenation of a side's fragments, not the fragments one
    by one. *)
Theorem fragments_accumulate_until_flush
    (ms : list (Host * LiveServerMessage)) (h : Host) (message : LiveServerMessage)
    (st : App) :
  Forall mid_turn ms ->
  turnComplete message = true ->
  audio_decodes h message = true ->
  let pending := accumulate message (accumulated ms (transcriptionRef st)) in
  transcriptionRef (deliver ms st) = accumulated ms (transcriptionRef st)
  /\ transcriptions (deliver ms st) = transcriptions st
  /\ transcriptions (deliver (ms ++ [(h, message)]) st)
     = flush_items h (filterHallucinations (input pending))
         (filterHallucinations (output pending)) (transcriptions st).
Proof.
  intros Hall Htc Hdec pending.
  destruct (deliver_mid_turn ms st Hall) as [Hbuf Hlog].
  split; [exact Hbuf|]. split; [exact Hlog|].
  rewrite deliver_app. unfold deliver at 1. simpl. unfold step. simpl.
  rewrite onmessage_turn_complete_log by assumption.
  rewrite Hbuf, Hlog. reflexivity.
Qed.

Lemma mid_turn_turn_fragments : Forall mid_turn turn_fragments.
Proof.
  unfold turn_fragments.
  repeat (apply Forall_cons; split; [split; reflexivity|]). apply Forall_nil_2.
Qed.

Lemma fragments_accumulate_until_flush_witness :
  Forall mid_turn turn_fragments
  /\ transcriptions (deliver (turn_fragments ++ [(sample_host, turn_complete)]) listening)
     = [ {| id := js "0.5"; role := user; text := js "mala bhuk lagli"; timestamp := 1000 |};
         {| id := js "0.5"; role := model; text := js "chala jevayla"; timestamp := 1000 |} ].
Proof.
  split; [exact mid_turn_turn_fragments|].
  destruct (fragments_accumulate_until_flush turn_fragments sample_host turn_complete
              listening mid_turn_turn_fragments eq_refl eq_refl) as (_ & _ & Hlog).
  exact Hlog.
Defined.

(** ** A chunk that does not decode *)

Lemma on_audio_decode_fails (h : Host) (message : LiveServerMessage) (st : App)
    (b : jsstring) :
  base64Audio message = Some b -> truthy b = true -> decodeAudioData h b = None ->
  is_Some (outputContextRef st) ->
  on_audio h message st = (Throw DecodeError, decode_failed h st).
Proof.
  intros Hb Ht Hd [ctx Hctx]. unfold on_audio, bind at 1, get.
  rewrite Hb, Hctx, Ht. simpl.
  unfold bind, setIsThinking, setIsSpeaking, modify, emit, modify, get, ret, throw; simpl.
  rewrite Hd. destruct st; reflexivity.
Qed.

Lemma bind_throw {A B} (m : M A) (k : A -> M B) (st : App) (e : Exn) :
  fst (m st) = Throw e -> bind m k st = (Throw e, snd (m st)).
Proof.
  unfold bind. destruct (m st) as [[a|e'] st1]; simpl; [discriminate|].
  intros [= ->]. reflexivity.
Qed.

(** X5. When the audio payload of a message does not decode, the handler
    raises after it has cleared the thinking flag, raised the speaking flag
    and clamped the cursor: nothing is scheduled, and the rest of the message
    is not handled, so an interruption flag stops no source and a
    turn-complete flag commits nothing and leaves the pending buffer in
    place. *)
Theorem decode_failure_aborts_message
    (h : Host) (message : LiveServerMessage) (st : App) (b : jsstring) :
  base64Audio message = Some b -> truthy b = true ->
  decodeAudioData h b = None ->
  is_Some (outputContextRef st) ->
  let st' := exec (onmessage h message) st in
  fst (onmessage h message st) = Throw DecodeError
  /\ isSpeaking st' = true
  /\ isThinking st' = false
  /\ nextStartTimeRef st' = Z.max (nextStartTimeRef st) (currentTime h)
  /\ effects st' = effects st
  /\ audioSourcesRef st' = audioSourcesRef st
  /\ transcriptions st' = transcriptions st
  /\ transcriptionRef st' = transcriptionRef st.
Proof.
  intros Hb Ht Hd Hctx st'.
  pose proof (on_audio_decode_fails h message st b Hb Ht Hd Hctx) as Ha.
  assert (Hall : onmessage h message st = (Throw DecodeError, decode_failed h st)).
  { unfold onmessage. rewrite (bind_throw _ _ _ DecodeError); rewrite Ha; reflexivity. }
  subst st'. unfold exec. rewrite Hall. simpl. repeat split.
Qed.

Lemma decode_failure_aborts_message_witness :
  decodeAudioData undecodable_host (js "AAAA") = None
  /\ fst (onmessage undecodable_host loaded_message turn_pending) = Throw DecodeError
  /\ audioSourcesRef (exec (onmessage undecodable_host loaded_message) turn_pending)
     = [1%nat; 2%nat]
  /\ transcriptions (exec (onmessage undecodable_host loaded_message) turn_pending) = []
  /\ isSpeaking (exec (onmessage undecodable_host loaded_message) turn_pending) = true.
Proof.
  destruct (decode_failure_aborts_message undecodable_host loaded_message turn_pending
              (js "AAAA") eq_refl eq_refl eq_refl (ex_intro _ 1%nat eq_refl))
    as (Hthrow & Hspk & _ & _ & _ & Hsrc & Hlog & _).
  repeat split; assumption.
Defined.

(** ** End of playback *)

Lemma onended_eq (s : AudioBufferSourceNode) (st : App) :
  onended s st
  = (Normal tt,
     let st1 := with_audioSourcesRef (set_delete s (audioSourcesRef st)) st in
     if Nat.eqb (length (set_delete s (audioSourcesRef st))) 0
     then with_isSpeaking false st1 else st1).
Proof.
  unfold onended, bind, modify, get, when, setIsSpeaking, modify, ret. simpl.
  destruct (Nat.eqb _ _); reflexivity.
Qed.

Lemma set_delete_In (s x : AudioBufferSourceNode) (l : list AudioBufferSourceNode) :
  In x (set_delete s l) <-> In x l /\ x <> s.
Proof.
  unfold set_delete. rewrite filter_In.
  destruct (Nat.eqb_spec s x) as [->|Hne]; simpl; split; intros [H1 H2];
    try discriminate; try congruence; split; congruence.
Qed.

(** X6. When playback of a source ends, the source leaves the active set and
    every other active source stays; the speaking flag is cleared when the set
    has become empty and is left as it was when another source is still
    active, so the late callback of a stopped source does not silence a chunk
    scheduled since.  Nothing else changes. *)
Theorem onended_removes_source (s : AudioBufferSourceNode) (st : App) :
  let st' := exec (onended s) st in
  fst (onended s st) = Normal tt
  /\ (forall x, In x (audioSourcesRef st') <-> In x (audioSourcesRef st) /\ x <> s)
  /\ (audioSourcesRef st' = [] -> isSpeaking st' = false)
  /\ (audioSourcesRef st' <> [] -> isSpeaking st' = isSpeaking st)
  /\ nextStartTimeRef st' = nextStartTimeRef st
  /\ effects st' = effects st
  /\ isThinking st' = isThinking st
  /\ status st' = status st.
Proof.
  cbv zeta. unfold exec. rewrite onended_eq. cbn [fst snd].
  assert (Hmem : forall x, In x (set_delete s (audioSourcesRef st))
                           <-> In x (audioSourcesRef st) /\ x <> s)
    by (intros x; apply set_delete_In).
  destruct (set_delete s (audioSourcesRef st)) as [|y l] eqn:Hdel; simpl.
  - split; [reflexivity|]. split; [exact Hmem|].
    split; [reflexivity|]. split; [intros H; contradiction|]. repeat split.
  - split; [reflexivity|]. split; [exact Hmem|].
    split; [discriminate|]. repeat split.
Qed.

Lemma step_ended_sources (h : Host) (s : AudioBufferSourceNode) (st : App) :
  audioSourcesRef (step st (h, SourceEnded s)) = set_delete s (audioSourcesRef st).
Proof.
  unfold step, exec. simpl. rewrite onended_eq. simpl.
  destruct (Nat.eqb _ _); reflexivity.
Qed.

Lemma step_ended_speaking (h : Host) (s : AudioBufferSourceNode) (st : App) :
  audioSourcesRef (step st (h, SourceEnded s)) = [] ->
  isSpeaking (step st (h, SourceEnded s)) = false.
Proof.
  unfold step, exec. simpl. rewrite onended_eq. simpl.
  destruct (set_delete s (audioSourcesRef st)); simpl; [reflexivity | discriminate].
Qed.

Lemma run_ended_sources (h : Host) (l : list AudioBufferSourceNode) (st : App)
    (x : AudioBufferSourceNode) :
  In x (audioSourcesRef (run (ended h l) st)) <-> In x (audioSourcesRef st) /\ ~ In x l.
Proof.
  revert st. induction l as [|s l IH]; intros st; simpl.
  - tauto.
  - rewrite IH, step_ended_sources, set_delete_In. intuition congruence.
Qed.

Lemma run_snoc (evs : list (Host * Event)) (he : Host * Event) (st : App) :
  run (evs ++ [he]) st = step (run evs st) he.
Proof. unfold run. rewrite fold_left_app. reflexivity. Qed.

(** X7. Once the end-of-playback callback has fired for every active source,
    in whatever order and possibly for other sources too, the active set is
    empty and the speaking flag is clear. *)
Theorem all_sources_ended (h : Host) (l : list AudioBufferSourceNode) (st : App) :
  l <> [] ->
  (forall s, In s (audioSourcesRef st) -> In s l) ->
  audioSourcesRef (run (ended h l) st) = []
  /\ isSpeaking (run (ended h l) st) = false.
Proof.
  intros Hne Hall.
  assert (Hempty : audioSourcesRef (run (ended h l) st) = []).
  { destruct (audioSourcesRef (run (ended h l) st)) as [|x r] eqn:Hsrc; [reflexivity|].
    exfalso. assert (Hx : In x (audioSourcesRef (run (ended h l) st)))
      by (rewrite Hsrc; left; reflexivity).
    apply run_ended_sources in Hx as [Hin Hnot]. apply Hnot, Hall, Hin. }
  split; [exact Hempty|].
  destruct l as [|s0 l0] using rev_ind; [congruence|]. clear IHl0.
  unfold ended in *. rewrite fmap_app in *. simpl in *.
  rewrite run_snoc in *. apply step_ended_speaking, Hempty.
Qed.

Lemma all_sources_ended_witness :
  (forall s, In s (audioSourcesRef playing) -> In s [2%nat; 5%nat; 1%nat])
  /\ audioSourcesRef (run (ended sample_host [2%nat; 5%nat; 1%nat]) playing) = []
  /\ isSpeaking (run (ended sample_host [2%nat; 5%nat; 1%nat]) playing) = false.
Proof.
  assert (Hall : forall s, In s (audioSourcesRef playing) -> In s [2%nat; 5%nat; 1%nat])
    by (simpl; intuition).
  split; [exact Hall|].
  apply (all_sources_ended sample_host [2%nat; 5%nat; 1%nat] playing); [discriminate|].
  exact Hall.
Defined.

(** ** What each kind of event leaves alone *)

#[local] Instance playback_untouched_preorder : PreOrder playback_untouched.
Proof.
  split.
  - intros a. repeat split. exists []. split; [symmetry; apply app_nil_r | constructor].
  - intros a b c (H1 & H2 & H3 & n1 & E1 & F1) (H4 & H5 & H6 & n2 & E2 & F2).
    split; [congruence|]. split; [congruence|]. split; [congruence|].
    exists (n1 ++ n2). split.
    + rewrite E2, E1, app_assoc. reflexivity.
    + apply Forall_app. split; assumption.
Qed.

#[local] Instance connection_untouched_preorder : PreOrder connection_untouched.
Proof.
  split.
  - intros a. repeat split.
  - intros a b c (H1 & H2 & H3 & H4 & H5) (H6 & H7 & H8 & H9 & H10).
    repeat split; congruence.
Qed.

Ltac quiet :=
  frame;
  (split; [reflexivity|]; split; [reflexivity|]; split; [reflexivity|]);
  first [ exists []; split; [symmetry; apply app_nil_r | constructor]
        | eexists [_]; split; [reflexivity | repeat constructor] ].

Lemma startSession_playback_untouched (sh : StartHost) :
  respects playback_untouched (startSession sh).
Proof. unfold startSession, startSession_try. quiet. Qed.

Lemma handleTextEnter_issue_playback_untouched (h : Host) (b : bool) (text : jsstring) :
  respects playback_untouched (handleTextEnter_issue h b text).
Proof. unfold handleTextEnter_issue. quiet. Qed.

Lemma handleTextEnter_settle_playback_untouched (h : Host) (r : SendResult) :
  respects playback_untouched (handleTextEnter_settle h r).
Proof. unfold handleTextEnter_settle. quiet. Qed.

Lemma text_event_playback_untouched (h : Host) (ev : Event) :
  is_text_event ev = true -> respects playback_untouched (handle h ev).
Proof.
  destruct ev; try discriminate; intros _; simpl.
  - apply respects_bind; [apply _ | apply handleTextEnter_issue_playback_untouched |].
    intros ?. apply respects_ret. apply _.
  - apply handleTextEnter_settle_playback_untouched.
  - unfold handleTextEnter.
    apply respects_bind; [apply _ | apply handleTextEnter_issue_playback_untouched |].
    intros []; simpl; [apply handleTextEnter_settle_playback_untouched|].
    apply respects_ret. apply _.
Qed.

Lemma not_lifecycle_connection_untouched (h : Host) (ev : Event) :
  is_lifecycle ev = false -> respects connection_untouched (handle h ev).
Proof.
  destruct ev; try discriminate; intros _; simpl;
    unfold onmessage, on_audio, on_interrupted, on_transcription, on_turnComplete,
      onended, handleTextEnter, handleTextEnter_issue, handleTextEnter_settle;
    frame; repeat split.
Qed.

Lemma not_message_pending_kept (h : Host) (ev : Event) :
  is_message ev = false ->
  forall st, transcriptionRef (step st (h, ev)) = transcriptionRef st.
Proof.
  intros Hev st.
  pose (R := fun a b : App => transcriptionRef b = transcriptionRef a).
  assert (HR : PreOrder R) by (split; [intros a; reflexivity | intros a b c; unfold R; congruence]).
  assert (H : respects R (handle h ev)).
  { destruct ev; try discriminate; simpl;
      unfold startSession, startSession_try, onerror, onclose, stopSession, onended,
        handleTextEnter, handleTextEnter_issue, handleTextEnter_settle;
      frame; reflexivity. }
  apply (H st).
Qed.

Lemma quiet_event_transcript_untouched (h : Host) (ev : Event) :
  is_message ev = false -> is_text_event ev = false ->
  respects transcript_untouched (handle h ev).
Proof.
  destruct ev; try discriminate; intros _ _; simpl;
    unfold startSession, startSession_try, onerror, onclose, stopSession, onended;
    frame; split; reflexivity.
Qed.

Lemma run_respects (R : relation App) `{!PreOrder R} (P : Event -> Prop)
    (evs : list (Host * Event)) (st : App) :
  (forall h ev, P ev -> respects R (handle h ev)) ->
  Forall (fun he => P (snd he)) evs ->
  R st (run evs st).
Proof.
  intros HP Hall. revert st. induction Hall as [|[h ev] evs Hev _ IH]; intros st; simpl.
  - reflexivity.
  - etransitivity; [|apply IH]. apply (HP h ev Hev st).
Qed.

(** X8. Start, stop, the transport's error and close callbacks and the end of
    playback never touch the transcript: over any sequence of such events the
    log and the pending buffer stay as they were.  In particular [stopSession]
    does not clear the pending buffer, so fragments of an unfinished turn
    survive a stop and a restart. *)
Theorem transcript_survives_lifecycle (evs : list (Host * Event)) (st : App) :
  Forall (fun he => is_message (snd he) = false /\ is_text_event (snd he) = false) evs ->
  transcriptions (run evs st) = transcriptions st
  /\ transcriptionRef (run evs st) = transcriptionRef st.
Proof.
  intros Hall.
  apply (run_respects transcript_untouched
           (fun ev => is_message ev = false /\ is_text_event ev = false) evs st);
    [|exact Hall].
  intros h ev [H1 H2]. apply quiet_event_transcript_untouched; assumption.
Qed.

Lemma transcript_survives_lifecycle_witness :
  transcriptionRef
    (run [(sample_host, Stop); (sample_host, Start willing_host);
          (sample_host, SourceEnded 1%nat); (sample_host, TransportFailed)]
       turn_pending)
  = {| input := js "mala bhuk lagli"; output := chala_marathi |}.
Proof.
  apply (transcript_survives_lifecycle
           [(sample_host, Stop); (sample_host, Start willing_host);
            (sample_host, SourceEnded 1%nat); (sample_host, TransportFailed)]
           turn_pending).
  repeat (apply Forall_cons; split; [split; reflexivity|]). apply Forall_nil_2.
Defined.

(** X9. Only start, stop and the transport's error and close callbacks change
    the connection: over any sequence of transport messages (also ones whose
    audio does not decode), end-of-playback callbacks and sendText events the
    status, the transport handle, the capture processor and both audio
    contexts stay as they were. *)
Theorem connection_changes_only_by_lifecycle (evs : list (Host * Event)) (st : App) :
  Forall (fun he => is_lifecycle (snd he) = false) evs ->
  status (run evs st) = status st
  /\ sessionRef (run evs st) = sessionRef st
  /\ scriptProcessorRef (run evs st) = scriptProcessorRef st
  /\ inputContextRef (run evs st) = inputContextRef st
  /\ outputContextRef (run evs st) = outputContextRef st.
Proof.
  intros Hall.
  apply (run_respects connection_untouched (fun ev => is_lifecycle ev = false) evs st);
    [|exact Hall].
  intros h ev Hev. apply not_lifecycle_connection_untouched, Hev.
Qed.

Lemma connection_changes_only_by_lifecycle_witness :
  status
    (run [(sample_host, Message audio_chunk); (sample_host, Message interruption);
          (undecodable_host, Message loaded_message);
          (sample_host, SendText false (Rejected RequestError) (js "hi"));
          (sample_host, SourceEnded 9%nat)]
       playing)
  = connected.
Proof.
  apply (connection_changes_only_by_lifecycle
           [(sample_host, Message audio_chunk); (sample_host, Message interruption);
            (undecodable_host, Message loaded_message);
            (sample_host, SendText false (Rejected RequestError) (js "hi"));
            (sample_host, SourceEnded 9%nat)]
           playing).
  repeat (apply Forall_cons; split; [reflexivity|]). apply Forall_nil_2.
Defined.

(** X10. sendText never touches the voice session: whatever the outcome of
    the request, the events of a sendText leave the active sources, the
    schedule cursor, the speaking flag and the pending buffer as they were,
    and they schedule, stop, close and disconnect nothing. *)
Theorem sendText_leaves_playback (evs : list (Host * Event)) (st : App) :
  Forall (fun he => is_text_event (snd he) = true) evs ->
  audioSourcesRef (run evs st) = audioSourcesRef st
  /\ nextStartTimeRef (run evs st) = nextStartTimeRef st
  /\ isSpeaking (run evs st) = isSpeaking st
  /\ transcriptionRef (run evs st) = transcriptionRef st
  /\ exists new, effects (run evs st) = effects st ++ new
                 /\ Forall (fun e => is_playback_or_teardown e = false) new.
Proof.
  intros Hall.
  destruct (run_respects playback_untouched (fun ev => is_text_event ev = true) evs st)
    as (H1 & H2 & H3 & H4); [|exact Hall|].
  { intros h ev Hev. apply text_event_playback_untouched, Hev. }
  split; [exact H1|]. split; [exact H2|]. split; [exact H3|]. split; [|exact H4].
  pose (R := fun a b : App => transcriptionRef b = transcriptionRef a).
  assert (HR : PreOrder R)
    by (split; [intros a; reflexivity | intros a b c; unfold R; congruence]).
  apply (run_respects R (fun ev => is_text_event ev = true) evs st); [|exact Hall].
  intros h ev Hev s. apply (not_message_pending_kept h ev).
  destruct ev; try discriminate; reflexivity.
Qed.

Lemma sendText_leaves_playback_witness :
  audioSourcesRef
    (run [(sample_host, TextEnter false (js "hi"));
          (sample_host, ChatSettled (Resolved (Some (js "hello"))))] playing)
  = [1%nat; 2%nat]
  /\ nextStartTimeRef
       (run [(sample_host, TextEnter false (js "hi"));
             (sample_host, ChatSettled (Resolved (Some (js "hello"))))] playing)
     = 50.
Proof.
  destruct (sendText_leaves_playback
              [(sample_host, TextEnter false (js "hi"));
               (sample_host, ChatSettled (Resolved (Some (js "hello"))))] playing)
    as (H1 & H2 & _).
  - repeat (apply Forall_cons; split; [reflexivity|]). apply Forall_nil_2.
  - split; assumption.
Defined.

(** ** More on startSession *)

(** X11. When every host call succeeds, a start from any state returns
    normally and ends connected, with the new transport handle and the new
    capture processor installed.  An audio context that already exists is
    reused and its constructor is not called again; a missing one is created.
    The host calls are made once each, in program order, and the capture
    processor is connected last. *)
Theorem start_connects (sh : StartHost) (st : App) :
  (forall step, fails sh step = None) ->
  let st' := exec (startSession sh) st in
  fst (startSession sh st) = Normal tt
  /\ status st' = connected
  /\ sessionRef st' = Some (newSession sh)
  /\ scriptProcessorRef st' = Some (newScriptProcessor sh)
  /\ inputContextRef st' =
       Some (match inputContextRef st with Some c => c | None => newInputContext sh end)
  /\ outputContextRef st' =
       Some (match outputContextRef st with Some c => c | None => newOutputContext sh end)
  /\ effects st' =
       effects st
       ++ (HostCall <$> start_calls (inputContextRef st) (outputContextRef st))
       ++ [ProcessorConnect (newScriptProcessor sh)].
Proof.
  intros Hok st'. subst st'.
  destruct st as [s t k iv tr [ic|] [oc|] se sp n srcs tref es];
    run_start sh; try congruence; simpl; rewrite <- ?app_assoc; repeat split.
Qed.

Lemma start_connects_witness :
  (forall step, fails willing_host step = None)
  /\ status (exec (startSession willing_host) playing) = connected
  /\ inputContextRef (exec (startSession willing_host) playing) = Some 0%nat
  /\ effects (exec (startSession willing_host) playing)
     = (HostCall <$> [GetUserMedia; NewGoogleGenAI; ResumeInput; ResumeOutput;
                      CreateAnalysers; CreateOutputNode; LiveConnect])
       ++ [ProcessorConnect 0%nat].
Proof.
  assert (Hok : forall step, fails willing_host step = None) by reflexivity.
  split; [exact Hok|].
  destruct (start_connects willing_host playing Hok) as (_ & Hs & _ & _ & Hic & _ & He).
  repeat split; assumption.
Defined.

(** X12. [startSession] never closes a transport handle, disconnects a
    capture processor, or starts or stops a source, and it leaves the active
    set, the cursor and the speaking flag as they were, whatever state it is
    called in and whether it succeeds or fails: a session that is already
    installed is not torn down by a second start. *)
Theorem start_tears_nothing_down (sh : StartHost) (st : App) :
  let st' := exec (startSession sh) st in
  audioSourcesRef st' = audioSourcesRef st
  /\ nextStartTimeRef st' = nextStartTimeRef st
  /\ isSpeaking st' = isSpeaking st
  /\ exists new,
       effects st' = effects st ++ new
       /\ (forall s, ~ In (SessionClose s) new)
       /\ (forall p, ~ In (ProcessorDisconnect p) new)
       /\ (forall s, ~ In (SourceStop s) new)
       /\ (forall s t, ~ In (SourceStart s t) new).
Proof.
  destruct (startSession_playback_untouched sh st) as (H1 & H2 & H3 & new & He & Hnew).
  cbv zeta. unfold exec. split; [exact H1|]. split; [exact H2|]. split; [exact H3|].
  exists new. split; [exact He|].
  rewrite List.Forall_forall in Hnew.
  repeat split; intros; intros Hin; apply Hnew in Hin; discriminate Hin.
Qed.

(** ** Sources are stopped only after they were started *)

Lemma started_app (es new : list Effect) (s : AudioBufferSourceNode) :
  started es s -> started (es ++ new) s.
Proof. intros [t Ht]. exists t. apply elem_of_app. left. exact Ht. Qed.

Lemma stops_follow_starts_app (es new : list Effect) :
  stops_follow_starts es ->
  (forall s, SourceStop s ∈ new -> started es s) ->
  stops_follow_starts (es ++ new).
Proof.
  intros Hes Hnew i s Hi.
  destruct (decide (i < length es)%nat) as [Hlt|Hge].
  - rewrite lookup_app_l in Hi by exact Hlt.
    destruct (Hes i s Hi) as (j & t & Hj & Hjs).
    exists j, t. split; [exact Hj|]. rewrite lookup_app_l by lia. exact Hjs.
  - rewrite lookup_app_r in Hi by lia.
    assert (Hin : SourceStop s ∈ new) by (eapply list_elem_of_lookup_2; exact Hi).
    destruct (Hnew s Hin) as [t Ht].
    apply list_elem_of_lookup in Ht as [j Hj].
    exists j, t. split.
    + apply lookup_lt_Some in Hj. lia.
    + rewrite lookup_app_l by (eapply lookup_lt_Some; exact Hj). exact Hj.
Qed.

Lemma consistent_quiet (a b : App) :
  playback_untouched a b -> playback_consistent a -> playback_consistent b.
Proof.
  intros (Hsrc & _ & _ & new & He & Hnew) [Hes Hact]. split.
  - rewrite He. apply stops_follow_starts_app; [exact Hes|].
    intros s Hin. rewrite Forall_forall in Hnew. apply Hnew in Hin. discriminate Hin.
  - intros s Hs. rewrite He. apply started_app, Hact. rewrite <- Hsrc. exact Hs.
Qed.

Lemma consistent_stop_all (st : App) (keep : App) :
  playback_consistent st ->
  effects keep = effects st ++ List.map SourceStop (audioSourcesRef st) ->
  audioSourcesRef keep = [] ->
  playback_consistent keep.
Proof.
  intros [Hes Hact] He Hsrc. split.
  - rewrite He. apply stops_follow_starts_app; [exact Hes|].
    intros s Hin. apply Hact.
    apply list_elem_of_In, in_map_iff in Hin as (x & [= ->] & Hx).
    apply list_elem_of_In, Hx.
  - intros s Hs. rewrite Hsrc in Hs. apply elem_of_nil in Hs. contradiction.
Qed.

Lemma on_audio_cases (h : Host) (message : LiveServerMessage) (st : App) :
  on_audio h message st = (Normal tt, st)
  \/ (exists d, on_audio h message st = (Normal tt, scheduled h d st))
  \/ on_audio h message st = (Throw DecodeError, decode_failed h st).
Proof.
  destruct (base64Audio message) as [b|] eqn:Hb;
    [|left; apply on_audio_skip; left; rewrite Hb; exact I].
  destruct (truthy b) eqn:Ht;
    [|left; apply on_audio_skip; left; rewrite Hb; exact Ht].
  destruct (outputContextRef st) as [c|] eqn:Hc;
    [|left; apply on_audio_skip; right; exact Hc].
  destruct (decodeAudioData h b) as [d|] eqn:Hd.
  - right. left. exists d. apply (on_audio_eq h message st b d); eauto.
  - right. right. apply (on_audio_decode_fails h message st b); eauto.
Qed.

Lemma consistent_on_audio (h : Host) (message : LiveServerMessage) (st : App) :
  playback_consistent st -> playback_consistent (exec (on_audio h message) st).
Proof.
  intros [Hes Hact]. unfold exec.
  destruct (on_audio_cases h message st) as [->|[[d ->]| ->]]; simpl.
  - split; assumption.
  - split; simpl.
    + apply stops_follow_starts_app; [exact Hes|].
      intros s Hin. apply list_elem_of_singleton in Hin. discriminate Hin.
    + intros s Hs. unfold set_add in Hs.
      destruct (existsb _ _).
      * apply started_app, Hact, Hs.
      * apply elem_of_app in Hs as [Hs|Hs]; [apply started_app, Hact, Hs|].
        apply list_elem_of_singleton in Hs as ->.
        eexists. apply elem_of_app. right. apply list_elem_of_singleton. reflexivity.
  - split; assumption.
Qed.

Lemma consistent_on_interrupted (h : Host) (message : LiveServerMessage) (st : App) :
  playback_consistent st -> playback_consistent (exec (on_interrupted h message) st).
Proof.
  intros Hst. unfold exec. destruct (interrupted message) eqn:Hi.
  - rewrite on_interrupted_eq by exact Hi. simpl.
    apply (consistent_stop_all st); [exact Hst | reflexivity | reflexivity].
  - rewrite on_interrupted_skip by exact Hi. exact Hst.
Qed.

Lemma consistent_onmessage (h : Host) (message : LiveServerMessage) (st : App) :
  playback_consistent st -> playback_consistent (exec (onmessage h message) st).
Proof.
  intros Hst.
  destruct (fst (on_audio h message st)) as [[]|e] eqn:Ha.
  - rewrite onmessage_exec by exact Ha.
    destruct (after_interruption_frame h message
                (exec (on_interrupted h message) (exec (on_audio h message) st)))
      as (Hsrc & _ & _ & He & _).
    pose proof (consistent_on_interrupted h message _
                  (consistent_on_audio h message st Hst)) as [Hes Hact].
    split.
    + rewrite He. exact Hes.
    + intros s Hs. rewrite He. apply Hact. rewrite <- Hsrc. exact Hs.
  - unfold exec, onmessage. rewrite (bind_throw _ _ _ e Ha). simpl.
    apply (consistent_on_audio h message st Hst).
Qed.

Lemma consistent_stopSession (h : Host) (st : App) :
  playback_consistent st -> playback_consistent (exec (stopSession h) st).
Proof.
  intros [Hes Hact]. unfold exec. rewrite stopSession_eq. simpl. split; simpl.
  - apply stops_follow_starts_app; [exact Hes|].
    intros s Hin. apply Hact. unfold teardown_calls in Hin.
    apply elem_of_app in Hin as [Hin|Hin];
      [destruct (sessionRef st); [apply list_elem_of_singleton in Hin; discriminate Hin
                                 | apply elem_of_nil in Hin; contradiction]|].
    apply elem_of_app in Hin as [Hin|Hin];
      [destruct (scriptProcessorRef st);
         [apply list_elem_of_singleton in Hin; discriminate Hin
         | apply elem_of_nil in Hin; contradiction]|].
    apply list_elem_of_In, in_map_iff in Hin as (x & [= ->] & Hx).
    apply list_elem_of_In, Hx.
  - intros s Hs. apply elem_of_nil in Hs. contradiction.
Qed.

Lemma consistent_onended (s : AudioBufferSourceNode) (st : App) :
  playback_consistent st -> playback_consistent (exec (onended s) st).
Proof.
  intros [Hes Hact]. unfold exec. rewrite onended_eq. cbn [snd].
  assert (Hsub : forall x, x ∈ set_delete s (audioSourcesRef st) -> started (effects st) x).
  { intros x Hx. apply Hact. apply list_elem_of_In.
    apply list_elem_of_In, set_delete_In in Hx as [Hx _]. exact Hx. }
  destruct (Nat.eqb _ _); split; simpl; assumption.
Qed.

Lemma consistent_step (st : App) (he : Host * Event) :
  playback_consistent st -> playback_consistent (step st he).
Proof.
  destruct he as [h ev]. intros Hst. unfold step. simpl.
  destruct ev as [sh| |m| | |src|b typed|r|b r typed]; simpl.
  - apply (consistent_quiet st); [apply startSession_playback_untouched | exact Hst].
  - apply consistent_stopSession, Hst.
  - apply consistent_onmessage, Hst.
  - apply consistent_stopSession, Hst.
  - apply consistent_stopSession, Hst.
  - apply consistent_onended, Hst.
  - apply (consistent_quiet st); [|exact Hst].
    apply (text_event_playback_untouched h (TextEnter b typed) eq_refl).
  - apply (consistent_quiet st); [|exact Hst].
    apply (text_event_playback_untouched h (ChatSettled r) eq_refl).
  - apply (consistent_quiet st); [|exact Hst].
    apply (text_event_playback_untouched h (SendText b r typed) eq_refl).
Qed.

Lemma consistent_run (evs : list (Host * Event)) (st : App) :
  playback_consistent st -> playback_consistent (run evs st).
Proof.
  revert st. induction evs as [|he evs IH]; intros st Hst; simpl; [exact Hst|].
  apply IH, consistent_step, Hst.
Qed.

Lemma consistent_mount (log : list TranscriptionEntry) : playback_consistent (mount log).
Proof.
  split; simpl.
  - intros i s Hi. rewrite lookup_nil in Hi. discriminate Hi.
  - intros s Hs. apply elem_of_nil in Hs. contradiction.
Qed.

(** X13. Over any sequence of events from a freshly mounted component,
    [stop] is only ever called on a source that [start] was called on
    earlier, and every source in the active set has been started: neither an
    interruption nor a teardown can reach a source that was never started. *)
Theorem stop_only_after_start (evs : list (Host * Event)) (log : list TranscriptionEntry) :
  let st := run evs (mount log) in
  (forall i s, effects st !! i = Some (SourceStop s) ->
     exists j t, (j < i)%nat /\ effects st !! j = Some (SourceStart s t))
  /\ (forall s, In s (audioSourcesRef st) -> exists t, In (SourceStart s t) (effects st)).
Proof.
  destruct (consistent_run evs (mount log) (consistent_mount log)) as [Hes Hact].
  split; [exact Hes|].
  intros s Hs. apply list_elem_of_In in Hs. destruct (Hact s Hs) as [t Ht].
  exists t. apply list_elem_of_In. exact Ht.
Qed.

(** ** More on sendText *)

Lemma run_app (evs1 evs2 : list (Host * Event)) (st : App) :
  run (evs1 ++ evs2) st = run evs2 (run evs1 st).
Proof. unfold run. apply fold_left_app. Qed.

Lemma step_TextEnter (h : Host) (typed : jsstring) (st : App) :
  truthy (trim typed) = true ->
  step st (h, TextEnter false typed)
  = with_effects (effects st ++ [ChatSendMessage (history_of (transcriptions st)) typed])
      (with_isThinking true
         (with_inputValue []
            (with_transcriptions
               (transcriptions st
                ++ [{| id := random h 0; role := user; text := typed;
                       timestamp := dateNow h 0 |}])
               st))).
Proof.
  intros Ht. unfold step, exec. simpl. unfold bind.
  rewrite handleTextEnter_issue_eq by exact Ht. reflexivity.
Qed.

Lemma step_ChatSettled (h : Host) (r : SendResult) (st : App) :
  step st (h, ChatSettled r)
  = match r with
    | Rejected e => with_isThinking false (with_effects (effects st ++ [ConsoleError e]) st)
    | Resolved reply =>
        with_isThinking false
          (with_transcriptions
             (transcriptions st
              ++ [{| id := random h 1; role := model;
                     text := filterHallucinations (or_empty reply);
                     timestamp := dateNow h 1 |}])
             st)
    end.
Proof.
  unfold step, exec. simpl. destruct r.
  - rewrite handleTextEnter_settle_rejected. reflexivity.
  - rewrite handleTextEnter_settle_resolved. reflexivity.
Qed.

Lemma step_SendText (h : Host) (r : SendResult) (typed : jsstring) (st : App) :
  truthy (trim typed) = true ->
  step st (h, SendText false r typed)
  = step (step st (h, TextEnter false typed)) (h, ChatSettled r).
Proof.
  intros Ht. rewrite (step_TextEnter h typed st Ht).
  unfold step, exec. simpl.
  rewrite handleTextEnter_eq by exact Ht. unfold exec.
  rewrite handleTextEnter_issue_eq by exact Ht. reflexivity.
Qed.

(** X14. The reply to a typed message is appended to the log as it stands
    when the request settles: whatever events are handled while the request is
    pending, the log ends as the old log, the user's text, the entries those
    events committed, and then the model's reply (nothing, when the request
    was rejected); and the thinking flag ends false. *)
Theorem reply_follows_interleaved_entries
    (h hs : Host) (typed : jsstring) (r : SendResult) (mid : list (Host * Event))
    (st : App) :
  truthy (trim typed) = true ->
  let st' := run ([(h, TextEnter false typed)] ++ mid ++ [(hs, ChatSettled r)]) st in
  isThinking st' = false
  /\ exists between,
       transcriptions st' =
         transcriptions st
         ++ [{| id := random h 0; role := user; text := typed; timestamp := dateNow h 0 |}]
         ++ between
         ++ match r with
            | Rejected _ => []
            | Resolved reply =>
                [{| id := random hs 1; role := model;
                    text := filterHallucinations (or_empty reply);
                    timestamp := dateNow hs 1 |}]
            end.
Proof.
  intros Ht st'. subst st'. rewrite !run_app. simpl.
  rewrite step_TextEnter by exact Ht.
  set (st1 := with_effects _ _).
  destruct (run_grows mid st1) as [between Hmid].
  rewrite step_ChatSettled. destruct r as [e|reply]; simpl.
  - split; [reflexivity|]. exists between. rewrite Hmid. subst st1. simpl.
    rewrite app_nil_r, <- app_assoc. reflexivity.
  - split; [reflexivity|]. exists between. rewrite Hmid. subst st1. simpl.
    rewrite <- !app_assoc. reflexivity.
Qed.

Lemma reply_follows_interleaved_entries_witness :
  truthy (trim (js "hi")) = true
  /\ isThinking
       (run ([(sample_host, TextEnter false (js "hi"))]
             ++ [(sample_host, Message turn_complete)]
             ++ [(sample_host, ChatSettled (Resolved (Some (js "hello"))))])
          turn_pending) = false
  /\ List.map (fun e => (role e, text e))
       (transcriptions
          (run ([(sample_host, TextEnter false (js "hi"))]
                ++ [(sample_host, Message turn_complete)]
                ++ [(sample_host, ChatSettled (Resolved (Some (js "hello"))))])
             turn_pending))
     = [(user, js "hi"); (user, js "mala bhuk lagli"); (model, js "chala jevayla");
        (model, js "hello")].
Proof.
  split; [reflexivity|].
  destruct (reply_follows_interleaved_entries sample_host sample_host (js "hi")
              (Resolved (Some (js "hello"))) [(sample_host, Message turn_complete)]
              turn_pending eq_refl) as (Hthink & _).
  split; [exact Hthink | reflexivity].
Defined.

(** X15. The history sent with a request is the log as it was when the
    handler was entered, entry by entry as role and text: the text just typed
    travels as the message and is not part of the history, and a second
    request carries the first exchange, the user's text unfiltered and the
    reply as filtered. *)
Theorem second_request_carries_first_exchange
    (h1 h2 : Host) (t1 t2 : jsstring) (reply : option jsstring) (r2 : SendResult)
    (st : App) :
  truthy (trim t1) = true ->
  truthy (trim t2) = true ->
  effects (run [(h1, SendText false (Resolved reply) t1); (h2, SendText false r2 t2)] st)
  = effects st
    ++ [ChatSendMessage (history_of (transcriptions st)) t1;
        ChatSendMessage
          (history_of (transcriptions st)
           ++ [(user, t1); (model, filterHallucinations (or_empty reply))]) t2]
    ++ match r2 with
       | Rejected e => [ConsoleError e]
       | Resolved _ => []
       end.
Proof.
  intros Ht1 Ht2. simpl.
  rewrite (step_SendText h1) by exact Ht1. rewrite (step_SendText h2) by exact Ht2.
  rewrite (step_TextEnter h1) by exact Ht1. rewrite step_ChatSettled.
  rewrite (step_TextEnter h2) by exact Ht2. rewrite step_ChatSettled.
  destruct r2 as [e|reply2]; simpl; unfold history_of;
    rewrite <- !app_assoc, !map_app; simpl; rewrite <- ?app_assoc; reflexivity.
Qed.

Lemma second_request_carries_first_exchange_witness :
  truthy (trim (js "hi")) = true
  /\ truthy (trim (js "kay re")) = true
  /\ effects (run [(sample_host, SendText false (Resolved (Some (js " hello "))) (js "hi"));
                   (sample_host, SendText false (Rejected RequestError) (js "kay re"))]
                (mount []))
     = [ChatSendMessage [] (js "hi");
        ChatSendMessage [(user, js "hi"); (model, js "hello")] (js "kay re");
        ConsoleError RequestError].
Proof.
  split; [reflexivity|]. split; [reflexivity|].
  apply (second_request_carries_first_exchange sample_host sample_host (js "hi")
           (js "kay re") (Some (js " hello ")) (Rejected RequestError) (mount [])
           eq_refl eq_refl).
Defined.

(** ** The presentation handlers *)

Lemma removelast_take {A} (l : list A) (n : nat) :
  (n <= length l)%nat -> removelast (take n l) = take (n - 1) l.
Proof.
  revert n. induction l as [|a l IH]; intros n Hn.
  - rewrite !take_nil. reflexivity.
  - destruct n as [|[|n]]; [reflexivity | reflexivity |].
    simpl in Hn. specialize (IH (S n) ltac:(lia)).
    destruct l as [|b l]; [simpl in Hn; lia|].
    replace (S (S n) - 1)%nat with (S n) by lia.
    replace (S n - 1)%nat with n in IH by lia.
    change (take (S (S n)) (a :: b :: l)) with (a :: b :: take n l).
    change (take (S n) (a :: b :: l)) with (a :: take n (b :: l)).
    rewrite <- IH. reflexivity.
Qed.

Lemma iter_onDelete (n : nat) (ui : Ui) :
  inputValue (app (Nat.iter n onDelete ui))
  = take (length (inputValue (app ui)) - n) (inputValue (app ui)).
Proof.
  induction n as [|n IH]; simpl.
  - rewrite Nat.sub_0_r, firstn_all. reflexivity.
  - rewrite IH, removelast_take by lia. f_equal. lia.
Qed.

(** X16. Delete removes the last code unit of the input box and nothing
    else: [n] presses leave the first [length - n] code units, so pressing
    delete on an empty box, or more often than there are code units, leaves the
    box empty; a delete right after a key of one code unit restores the box. *)
Theorem delete_removes_last_unit (n : nat) (c : N) (ui : Ui) :
  inputValue (app (Nat.iter n onDelete ui))
  = take (length (inputValue (app ui)) - n) (inputValue (app ui))
  /\ (length (inputValue (app ui)) <= n -> inputValue (app (Nat.iter n onDelete ui)) = [])%nat
  /\ inputValue (app (onDelete (onKeyClick [c] ui))) = inputValue (app ui)
  /\ transcriptions (app (Nat.iter n onDelete ui)) = transcriptions (app ui)
  /\ showKeyboard (Nat.iter n onDelete ui) = showKeyboard ui.
Proof.
  split; [apply iter_onDelete|].
  split.
  { intros Hle. rewrite iter_onDelete.
    replace (length (inputValue (app ui)) - n)%nat with 0%nat by lia. apply take_0. }
  split; [simpl; apply removelast_last|].
  split; induction n as [|n IH]; simpl; auto.
Qed.

Lemma type_keys_inputValue (ks : list jsstring) (ui : Ui) :
  inputValue (app (type_keys ks ui)) = inputValue (app ui) ++ concat ks
  /\ transcriptions (app (type_keys ks ui)) = transcriptions (app ui)
  /\ effects (app (type_keys ks ui)) = effects (app ui)
  /\ showKeyboard (type_keys ks ui) = showKeyboard ui.
Proof.
  revert ui. induction ks as [|k ks IH]; intros ui; simpl.
  - rewrite app_nil_r. auto.
  - destruct (IH (onKeyClick k ui)) as (H1 & H2 & H3 & H4).
    unfold type_keys in *. rewrite H1, H2, H3, H4. simpl.
    rewrite <- app_assoc. auto.
Qed.

(** X17. Typing keys into an empty box and pressing Enter submits exactly the
    typed text: the user entry holds the concatenation of the keys, the request
    carries it as the message with the log before as history, the box is
    cleared, the thinking flag is raised and the keyboard is hidden. *)
Theorem typed_text_is_submitted (h : Host) (ks : list jsstring) (ui : Ui) :
  inputValue (app ui) = [] ->
  truthy (trim (concat ks)) = true ->
  let ui' := onEnter h false (type_keys ks ui) in
  transcriptions (app ui') =
    transcriptions (app ui)
    ++ [{| id := random h 0; role := user; text := concat ks; timestamp := dateNow h 0 |}]
  /\ effects (app ui') =
       effects (app ui) ++ [ChatSendMessage (history_of (transcriptions (app ui))) (concat ks)]
  /\ inputValue (app ui') = []
  /\ isThinking (app ui') = true
  /\ showKeyboard ui' = false.
Proof.
  intros Hbox Ht ui'. subst ui'.
  destruct (type_keys_inputValue ks ui) as (Hiv & Hlog & He & _).
  rewrite Hbox in Hiv. simpl in Hiv.
  unfold onEnter. simpl. rewrite Hiv. unfold exec.
  rewrite handleTextEnter_issue_eq by exact Ht. simpl.
  rewrite Hlog, He. repeat split.
Qed.

Lemma typed_text_is_submitted_witness :
  inputValue (app {| app := playing; showKeyboard := true |}) = []
  /\ truthy (trim (concat [js "k"; js "a"; js "y"])) = true
  /\ transcriptions
       (app (onEnter sample_host false
               (type_keys [js "k"; js "a"; js "y"] {| app := playing; showKeyboard := true |})))
     = [{| id := js "0.5"; role := user; text := js "kay"; timestamp := 1000 |}].
Proof.
  split; [reflexivity|]. split; [reflexivity|].
  destruct (typed_text_is_submitted sample_host [js "k"; js "a"; js "y"]
              {| app := playing; showKeyboard := true |} eq_refl eq_refl) as (Hlog & _).
  exact Hlog.
Defined.





